(** * Low-rank matrix factorisation (recommender.ipynb)

    A shallow embedding of the three functions of the notebook,
    [compute_cost], [update] and [train], together with the part of NumPy
    they use: two-dimensional arrays with an explicit shape, the matrix
    product [@], the transpose [.T], elementwise arithmetic with
    broadcasting, in-place subtraction [-=], [np.sum], [np.linalg.norm]
    and [np.random.randn].

    Numbers: NumPy's float64 entries are modelled as real numbers, so every
    statement below is about the exact arithmetic the code denotes;
    rounding, overflow and NaN are outside the model.  Shapes are natural
    numbers and every operation that NumPy rejects for its operand shapes
    returns [ValueError].

    Scope of the real-number model: an [ndarray R] stands for a
    two-dimensional array of finite numbers in which the factors [X] and
    [Theta] have dtype float64, as [train] creates them (an integer [X]
    would make [X -= alpha * dX] raise a casting error, which is not
    modelled).  Where a property of the program depends on binary64 itself,
    the same lines are also given on arrays of binary64 numbers
    ([compute_cost_f64], [update_f64]), which evaluate with rounding,
    infinities and NaN; and [train_int] takes Python's signed integers for
    [n_factor] and [n_iter].

    Contents: the embedding; finite sums; shapes under broadcasting; the
    three functions on conforming shapes; the value of [compute_cost]
    against the documented cost [J]; the update step; masking; the
    training loop; shape errors; the gradients as partial derivatives. *)

From Stdlib Require Import PrimFloat.
From Stdlib Require Import Reals Lra Lia List Arith Bool.
Import ListNotations.

Local Open Scope R_scope.

(** ** Errors *)

(** NumPy raises [ValueError] when operand shapes do not fit. *)
Inductive result (A : Type) : Type :=
| Ok (a : A)
| ValueError.

Arguments Ok {A} a.
Arguments ValueError {A}.

Definition bind_result {A B : Type} (m : result A) (k : A -> result B) : result B :=
  match m with
  | Ok a => k a
  | ValueError => ValueError
  end.

Declare Scope result_scope.
Delimit Scope result_scope with result.
Notation "x <- m ;; k" := (bind_result m (fun x => k))
  (at level 61, m at next level, right associativity) : result_scope.

(** ** Two-dimensional arrays *)

(** An [ndarray] with [ndim = 2]: its shape and its entries.  Only the
    entries [item i j] with [i < shape0] and [j < shape1] belong to the
    array. *)
Record ndarray (A : Type) : Type := mk_array {
  shape0 : nat;
  shape1 : nat;
  item : nat -> nat -> A
}.

Arguments mk_array {A} shape0 shape1 item.
Arguments shape0 {A} n.
Arguments shape1 {A} n.
Arguments item {A} n i j.

Definition shape {A : Type} (M : ndarray A) : nat * nat := (shape0 M, shape1 M).

(** Two arrays are the same array when they have the same shape and the
    same entries inside it. *)
Definition array_eq {A : Type} (M N : ndarray A) : Prop :=
  shape0 M = shape0 N /\ shape1 M = shape1 N /\
  forall i j, (i < shape0 M)%nat -> (j < shape1 M)%nat -> item M i j = item N i j.

(** [sum_n n f] is [f 0 + ... + f (n-1)]. *)
Fixpoint sum_n (n : nat) (f : nat -> R) : R :=
  match n with
  | O => 0
  | S m => sum_n m f + f m
  end.

(** [np.sum(M)]: the sum of all entries. *)
Definition np_sum (M : ndarray R) : R :=
  sum_n (shape0 M) (fun i => sum_n (shape1 M) (fun j => item M i j)).

(** [M.T] *)
Definition transpose {A : Type} (M : ndarray A) : ndarray A :=
  mk_array (shape1 M) (shape0 M) (fun i j => item M j i).

(** [M @ N]: defined when the inner dimensions agree. *)
Definition matmul (M N : ndarray R) : result (ndarray R) :=
  if (shape1 M =? shape0 N)%nat
  then Ok (mk_array (shape0 M) (shape1 N)
             (fun i j => sum_n (shape1 M) (fun l => item M i l * item N l j)))
  else ValueError.

(** Broadcasting of one axis: equal lengths, or one of them is 1. *)
Definition broadcast_dim (m n : nat) : result nat :=
  if (m =? n)%nat then Ok m
  else if (m =? 1)%nat then Ok n
  else if (n =? 1)%nat then Ok m
  else ValueError.

(** The index read along an axis of length [n]: an axis of length 1 is
    stretched, every index reads its only entry. *)
Definition stretch (n i : nat) : nat := if (n =? 1)%nat then O else i.

(** An elementwise binary operation with broadcasting. *)
Definition broadcast2 {A B C : Type} (f : A -> B -> C)
    (M : ndarray A) (N : ndarray B) : result (ndarray C) :=
  (r <- broadcast_dim (shape0 M) (shape0 N) ;;
   c <- broadcast_dim (shape1 M) (shape1 N) ;;
   Ok (mk_array r c
         (fun i j => f (item M (stretch (shape0 M) i) (stretch (shape1 M) j))
                       (item N (stretch (shape0 N) i) (stretch (shape1 N) j)))))%result.

(** [M + N] and [M - N] on float arrays. *)
Definition add (M N : ndarray R) : result (ndarray R) := broadcast2 Rplus M N.
Definition subtract (M N : ndarray R) : result (ndarray R) := broadcast2 Rminus M N.

(** A boolean entry used in arithmetic counts as 1.0 or 0.0. *)
Definition float_of_bool (b : bool) : R := if b then 1 else 0.

(** [M * B] for a float array [M] and a boolean array [B]. *)
Definition multiply_mask (M : ndarray R) (B : ndarray bool) : result (ndarray R) :=
  broadcast2 (fun x b => x * float_of_bool b) M B.

(** [c * M] for a scalar [c]. *)
Definition scale (c : R) (M : ndarray R) : ndarray R :=
  mk_array (shape0 M) (shape1 M) (fun i j => c * item M i j).

(** [M -= N]: the result is written into [M], so the broadcast shape must
    be the shape of [M]. *)
Definition isub (M N : ndarray R) : result (ndarray R) :=
  (D <- subtract M N ;;
   if ((shape0 D =? shape0 M) && (shape1 D =? shape1 M))%nat
   then Ok D else ValueError)%result.

(** [np.linalg.norm(M)]: the Frobenius norm. *)
Definition norm (M : ndarray R) : R :=
  sqrt (np_sum (mk_array (shape0 M) (shape1 M) (fun i j => Rabs (item M i j) ^ 2))).

(** ** compute_cost *)

(** [(X @ Theta.T - Y) * has_rating], the expression shared by
    [compute_cost] and both gradient lines of [update]. *)
Definition masked_error (X Theta Y : ndarray R) (has_rating : ndarray bool)
  : result (ndarray R) :=
  (P <- matmul X (transpose Theta) ;;
   D <- subtract P Y ;;
   multiply_mask D has_rating)%result.

Definition compute_cost (X Theta Y : ndarray R) (has_rating : ndarray bool) (reg : R)
  : result R :=
  (error <- masked_error X Theta Y has_rating ;;
   G <- matmul error (transpose error) ;;
   let squared_diff := np_sum G / 2 in
   let penalty := reg / 2 * (norm X ^ 2 + norm Theta ^ 2) in
   Ok (squared_diff + penalty))%result.

(** ** update *)

(** Line [dX = ((X @ Theta.T - Y) * has_rating) @ Theta + reg * X]. *)
Definition dX (X Theta Y : ndarray R) (has_rating : ndarray bool) (reg : R)
  : result (ndarray R) :=
  (E <- masked_error X Theta Y has_rating ;;
   M <- matmul E Theta ;;
   add M (scale reg X))%result.

(** Line [dTheta = ((X @ Theta.T - Y) * has_rating).T @ X + reg * Theta]. *)
Definition dTheta (X Theta Y : ndarray R) (has_rating : ndarray bool) (reg : R)
  : result (ndarray R) :=
  (E <- masked_error X Theta Y has_rating ;;
   M <- matmul (transpose E) X ;;
   add M (scale reg Theta))%result.

(** The function on the contents of the two arrays: both gradients are
    evaluated before the first in-place subtraction.  [Y.shape[0]] and
    [Y.shape[1]] are read into [ni], [nu] and not used. *)
Definition update (X Theta Y : ndarray R) (has_rating : ndarray bool) (reg alpha : R)
  : result (ndarray R * ndarray R) :=
  (gX <- dX X Theta Y has_rating reg ;;
   gTheta <- dTheta X Theta Y has_rating reg ;;
   X' <- isub X (scale alpha gX) ;;
   Theta' <- isub Theta (scale alpha gTheta) ;;
   Ok (X', Theta'))%result.

(** The same four statements on references.  NumPy arrays are objects and
    [-=] writes into its target, so [update] changes the arrays of its
    caller; the store maps an object to its current contents. *)
Definition store : Type := nat -> ndarray R.

Definition write (h : store) (p : nat) (M : ndarray R) : store :=
  fun q => if (q =? p)%nat then M else h q.

Definition update_in_place (h : store) (pX pTheta : nat)
    (Y : ndarray R) (has_rating : ndarray bool) (reg alpha : R) : result store :=
  (gX <- dX (h pX) (h pTheta) Y has_rating reg ;;
   gTheta <- dTheta (h pX) (h pTheta) Y has_rating reg ;;
   X' <- isub (h pX) (scale alpha gX) ;;
   let h1 := write h pX X' in
   Theta' <- isub (h1 pTheta) (scale alpha gTheta) ;;
   Ok (write h1 pTheta Theta'))%result.

(** ** train *)

(** [train] reads NumPy's global random generator and prints to the
    console.  The generator is a stream of standard-normal samples and the
    number of samples already drawn; the console is the list of
    (iteration, loss) pairs printed so far, oldest first. *)
Record rng : Type := mk_rng {
  samples : nat -> R;
  drawn : nat
}.

Record world : Type := mk_world {
  np_random : rng;
  stdout : list (nat * R)
}.

(** A computation that may change the world and may raise: what was
    printed before an exception stays printed. *)
Definition io (A : Type) : Type := world -> world * result A.

Definition ret_io {A : Type} (a : A) : io A := fun w => (w, Ok a).

Definition bind_io {A B : Type} (m : io A) (k : A -> io B) : io B :=
  fun w =>
    match m w with
    | (w', Ok a) => k a w'
    | (w', ValueError) => (w', ValueError)
    end.

Declare Scope io_scope.
Delimit Scope io_scope with io.
Notation "x <- m ;; k" := (bind_io m (fun x => k))
  (at level 61, m at next level, right associativity) : io_scope.
Notation "m ;; k" := (bind_io m (fun _ => k))
  (at level 61, right associativity) : io_scope.

Definition lift {A : Type} (r : result A) : io A := fun w => (w, r).

(** [print("Iteration {}, loss = {}".format(i, c))] *)
Definition print (line : nat * R) : io unit :=
  fun w => (mk_world (np_random w) (stdout w ++ [line]), Ok tt).

(** [np.random.randn(r, c)]: the next [r * c] samples, row by row. *)
Definition randn (r c : nat) : io (ndarray R) :=
  fun w =>
    let g := np_random w in
    (mk_world (mk_rng (samples g) (drawn g + r * c)) (stdout w),
     Ok (mk_array r c (fun i j => samples g (drawn g + i * c + j)%nat))).

(** [for i in idx: s = body(i, s)] *)
Fixpoint for_each {S : Type} (idx : list nat) (body : nat -> S -> io S) (s : S) : io S :=
  match idx with
  | [] => ret_io s
  | i :: rest => (s' <- body i s ;; for_each rest body s')%io
  end.

(** The body of the loop of [train] for iteration [i]. *)
Definition train_body (Y : ndarray R) (has_rating : ndarray bool) (reg alpha : R)
    (i : nat) (s : ndarray R * ndarray R) : io (ndarray R * ndarray R) :=
  let '(X, Theta) := s in
  ((if (i =? 0)%nat || (i mod 100 =? 0)%nat
    then (c <- lift (compute_cost X Theta Y has_rating reg) ;; print (i, c))
    else ret_io tt) ;;
   lift (update X Theta Y has_rating reg alpha))%io.

(** [range(n_iter)] is [seq 0 n_iter]; [n_factor] and [n_iter] are natural
    numbers here.  [X] and [Theta] are two distinct arrays, each referred
    to by one variable only, so the loop is modelled on their contents
    ([update_in_place_distinct] below). *)
Definition train (Y : ndarray R) (has_rating : ndarray bool) (reg alpha : R)
    (n_factor n_iter : nat) : io (ndarray R * ndarray R) :=
  let ni := shape0 Y in
  let nu := shape1 Y in
  (X <- randn ni n_factor ;;
   Theta <- randn nu n_factor ;;
   for_each (seq 0 n_iter) (train_body Y has_rating reg alpha) (X, Theta))%io.

(** ** The documented cost *)

(** The notebook states the cost it means to compute:
    J = 1/2 * (sum over rated (i,j) of (theta_j . x_i - y_ij)^2)
        + lambda/2 * (sum_i |x_i|^2 + sum_j |theta_j|^2).
    [J] is that formula, entry by entry, for [X] of shape (ni,k) and
    [Theta] of shape (nu,k). *)
Definition residual (X Theta Y : ndarray R) (has_rating : ndarray bool) (i j : nat) : R :=
  (sum_n (shape1 X) (fun l => item X i l * item Theta j l) - item Y i j)
  * float_of_bool (item has_rating i j).

Definition frobenius2 (M : ndarray R) : R :=
  sum_n (shape0 M) (fun i => sum_n (shape1 M) (fun j => item M i j * item M i j)).

Definition J (X Theta Y : ndarray R) (has_rating : ndarray bool) (reg : R) : R :=
  1 / 2 * sum_n (shape0 X) (fun i => sum_n (shape0 Theta) (fun j =>
            residual X Theta Y has_rating i j * residual X Theta Y has_rating i j))
  + reg / 2 * (frobenius2 X + frobenius2 Theta).

(** The shapes the notebook intends: [X] is (ni,k), [Theta] is (nu,k),
    [Y] and [has_rating] are (ni,nu). *)
Definition conforming (X Theta Y : ndarray R) (has_rating : ndarray bool) : Prop :=
  shape1 X = shape1 Theta /\
  shape0 Y = shape0 X /\ shape1 Y = shape0 Theta /\
  shape0 has_rating = shape0 X /\ shape1 has_rating = shape0 Theta.

(** What [np.sum(error @ error.T)] adds up: every entry of the (ni,ni)
    product, the off-diagonal ones included.  This is the sum over the
    columns [j] of the squared column sum of the masked residuals. *)
Definition column_sum_squares (X Theta Y : ndarray R) (has_rating : ndarray bool) : R :=
  sum_n (shape0 Theta) (fun j =>
    sum_n (shape0 X) (fun i => residual X Theta Y has_rating i j)
    * sum_n (shape0 X) (fun i => residual X Theta Y has_rating i j)).

(** Every rated entry is predicted exactly. *)
Definition exactly_reconstructed (X Theta Y : ndarray R) (has_rating : ndarray bool) : Prop :=
  forall i j, (i < shape0 X)%nat -> (j < shape0 Theta)%nat ->
    item has_rating i j = true ->
    sum_n (shape1 X) (fun l => item X i l * item Theta j l) = item Y i j.

Definition all_zero (M : ndarray R) : Prop :=
  forall i j, (i < shape0 M)%nat -> (j < shape1 M)%nat -> item M i j = 0.

(** ** Concrete arrays *)

(** [np.array(rows)] for a rectangular list of rows. *)
Definition np_array {A : Type} (d : A) (rows : list (list A)) : ndarray A :=
  mk_array (length rows) (length (hd [] rows))
           (fun i j => nth j (nth i rows []) d).

(** Two items, one user, one factor; both ratings are observed and equal
    to 2, both predictions are 1, so both residuals are -1. *)
Definition X_two : ndarray R := np_array 0 [[1]; [1]].
Definition Theta_one : ndarray R := np_array 0 [[1]].
Definition Y_two : ndarray R := np_array 0 [[2]; [2]].
Definition rated_two : ndarray bool := np_array false [[true]; [true]].

(** One item, one user, one factor; every entry 0 and nothing rated
    (what [has_rating = (Y > 0)] gives for [Y = [[0]]]). *)
Definition X_zero : ndarray R := np_array 0 [[0]].
Definition Theta_zero : ndarray R := np_array 0 [[0]].
Definition Y_zero : ndarray R := np_array 0 [[0]].
Definition rated_none : ndarray bool := np_array false [[false]].

(** A (1,1) ratings array: it does not have the shape of [rated_two] but
    NumPy broadcasts it against the (2,1) prediction. *)
Definition Y_one : ndarray R := np_array 0 [[2]].

(** Two ratings arrays that agree on the first item, the only one that
    [rated_first] marks as rated. *)
Definition Y_first : ndarray R := np_array 0 [[2]; [0]].
Definition Y_other : ndarray R := np_array 0 [[2]; [-3]].
Definition rated_first : ndarray bool := np_array false [[true]; [false]].

(** ** Which shapes NumPy accepts *)

(** Two axis lengths can be broadcast together. *)
Definition compatible (m n : nat) : bool :=
  (m =? n)%nat || (m =? 1)%nat || (n =? 1)%nat.

(** The length they are broadcast to. *)
Definition stretched (m n : nat) : nat := if (m =? 1)%nat then n else m.

(** The shape of [(X @ Theta.T - Y) * has_rating] when it is defined. *)
Definition error_rows (X Y : ndarray R) (has_rating : ndarray bool) : nat :=
  stretched (stretched (shape0 X) (shape0 Y)) (shape0 has_rating).
Definition error_cols (Theta Y : ndarray R) (has_rating : ndarray bool) : nat :=
  stretched (stretched (shape0 Theta) (shape1 Y)) (shape1 has_rating).

(** [compute_cost] goes through: the factor counts agree and [Y], then
    [has_rating], broadcast against the prediction. *)
Definition cost_shapes_ok (X Theta Y : ndarray R) (has_rating : ndarray bool) : bool :=
  (shape1 X =? shape1 Theta)%nat
  && compatible (shape0 X) (shape0 Y)
  && compatible (shape0 Theta) (shape1 Y)
  && compatible (stretched (shape0 X) (shape0 Y)) (shape0 has_rating)
  && compatible (stretched (shape0 Theta) (shape1 Y)) (shape1 has_rating).

(** [update] goes through: as for [compute_cost], and broadcasting has not
    made the masked error larger than (ni,nu). *)
Definition update_shapes_ok (X Theta Y : ndarray R) (has_rating : ndarray bool) : bool :=
  cost_shapes_ok X Theta Y has_rating
  && (error_rows X Y has_rating =? shape0 X)%nat
  && (error_cols Theta Y has_rating =? shape0 Theta)%nat.

(** ** Iterating the update step *)

(** [update] applied [n] times in sequence, the first application first. *)
Fixpoint updates (Y : ndarray R) (has_rating : ndarray bool) (reg alpha : R)
    (n : nat) (s : ndarray R * ndarray R) : result (ndarray R * ndarray R) :=
  match n with
  | O => Ok s
  | S m => (s' <- update (fst s) (snd s) Y has_rating reg alpha ;;
            updates Y has_rating reg alpha m s')%result
  end.

(** The cost of the factors reached after [n] update steps. *)
Definition loss_after (Y : ndarray R) (has_rating : ndarray bool) (reg alpha : R)
    (n : nat) (s : ndarray R * ndarray R) : result R :=
  (s' <- updates Y has_rating reg alpha n s ;;
   compute_cost (fst s') (snd s') Y has_rating reg)%result.

(** The number carried by a result, 0 for an exception. *)
Definition value_of (r : result R) : R :=
  match r with
  | Ok c => c
  | ValueError => 0
  end.

(** The iterations at which [train] prints: [i == 0 or i % 100 == 0]
    holds exactly for the multiples of 100. *)
Definition reported (i : nat) : bool := (i mod 100 =? 0)%nat.

(** ** Partial derivatives *)

(** The array [M] with entry (i,j) replaced by [v]. *)
Definition set_item (M : ndarray R) (i j : nat) (v : R) : ndarray R :=
  mk_array (shape0 M) (shape1 M)
           (fun i' j' => if ((i' =? i) && (j' =? j))%nat then v else item M i' j').

(** ** Inputs for train *)

(** A (5,7) ratings array and its mask [Y > 0]. *)
Definition Y_5x7 : ndarray R :=
  mk_array 5 7 (fun i j => if (i =? j)%nat then 4 else 0).
Definition rated_5x7 : ndarray bool :=
  mk_array 5 7 (fun i j => (i =? j)%nat).

(** A generator that has drawn nothing yet and an empty console. *)
Definition fresh_world (stream : nat -> R) : world :=
  mk_world (mk_rng stream 0) [].

(** ** The notebook's run *)

(** [M > c]: the notebook derives the mask as [has_rating = (Y > 0)], 0
    standing for "not rated". *)
Definition greater (M : ndarray R) (c : R) : ndarray bool :=
  mk_array (shape0 M) (shape1 M)
           (fun i j => if Rlt_dec c (item M i j) then true else false).

(** [np.random.seed(s)]: the generator restarts on the stream belonging to
    the seed.  Which stream belongs to which seed is NumPy's affair and is
    the parameter [seeded]. *)
Definition seed (seeded : nat -> nat -> R) (s : nat) : io unit :=
  fun w => (mk_world (mk_rng (seeded s) 0) (stdout w), Ok tt).

(** The cells that fit and predict, for the ratings [Y] read from the file:
    [has_rating = (Y > 0)], [np.random.seed(915)],
    [X_fitted, Theta_fitted = train(Y, has_rating, 0, 0.0009, 10, 2501)]
    and [X_fitted @ Theta_fitted.T]. *)
Definition fit_and_predict (seeded : nat -> nat -> R) (Y : ndarray R) : io (ndarray R) :=
  let has_rating := greater Y 0 in
  (seed seeded 915 ;;
   s <- train Y has_rating 0 (9 / 10000) 10 2501 ;;
   let '(X_fitted, Theta_fitted) := s in
   lift (matmul X_fitted (transpose Theta_fitted)))%io.


(** One item rated by one user. *)
Definition rated_one : ndarray bool := np_array false [[true]].

(** ** Signed integers for train *)

(** [np.random.randn(r, c)] for a Python integer [c]: a negative dimension
    is rejected with [ValueError] before anything is drawn. *)
Definition randn_int (r : nat) (c : Z) : io (ndarray R) :=
  if (c <? 0)%Z then (fun w => (w, ValueError)) else randn r (Z.to_nat c).

(** [train] with [n_factor] and [n_iter] as Python integers:
    [range(n_iter)] is empty for [n_iter <= 0]. *)
Definition train_int (Y : ndarray R) (has_rating : ndarray bool) (reg alpha : R)
    (n_factor n_iter : Z) : io (ndarray R * ndarray R) :=
  let ni := shape0 Y in
  let nu := shape1 Y in
  (X <- randn_int ni n_factor ;;
   Theta <- randn_int nu n_factor ;;
   for_each (seq 0 (Z.to_nat n_iter)) (train_body Y has_rating reg alpha) (X, Theta))%io.

(** ** The same lines in binary64 *)

(** [compute_cost] and [update] once more, on arrays whose entries are
    binary64 numbers with IEEE 754 arithmetic (round to nearest even,
    infinities, NaN): the operations are those of [PrimFloat].  Sums run
    from 0.0 through the terms from left to right; NumPy and BLAS may take
    longer sums in another order. *)
Fixpoint sum_n_f64 (n : nat) (f : nat -> float) : float :=
  match n with
  | O => PrimFloat.zero
  | S m => PrimFloat.add (sum_n_f64 m f) (f m)
  end.

Definition np_sum_f64 (M : ndarray float) : float :=
  sum_n_f64 (shape0 M) (fun i => sum_n_f64 (shape1 M) (fun j => item M i j)).

Definition matmul_f64 (M N : ndarray float) : result (ndarray float) :=
  if (shape1 M =? shape0 N)%nat
  then Ok (mk_array (shape0 M) (shape1 N)
             (fun i j => sum_n_f64 (shape1 M)
                           (fun l => PrimFloat.mul (item M i l) (item N l j))))
  else ValueError.

Definition add_f64 (M N : ndarray float) : result (ndarray float) :=
  broadcast2 PrimFloat.add M N.
Definition subtract_f64 (M N : ndarray float) : result (ndarray float) :=
  broadcast2 PrimFloat.sub M N.

(** [True] is 1.0 and [False] is 0.0. *)
Definition f64_of_bool (b : bool) : float :=
  if b then PrimFloat.one else PrimFloat.zero.

Definition multiply_mask_f64 (M : ndarray float) (B : ndarray bool)
  : result (ndarray float) :=
  broadcast2 (fun x b => PrimFloat.mul x (f64_of_bool b)) M B.

Definition scale_f64 (c : float) (M : ndarray float) : ndarray float :=
  mk_array (shape0 M) (shape1 M) (fun i j => PrimFloat.mul c (item M i j)).

Definition isub_f64 (M N : ndarray float) : result (ndarray float) :=
  (D <- subtract_f64 M N ;;
   if ((shape0 D =? shape0 M) && (shape1 D =? shape1 M))%nat
   then Ok D else ValueError)%result.

(** [np.linalg.norm(M)]: the square root of the sum of the squared
    entries. *)
Definition norm_f64 (M : ndarray float) : float :=
  PrimFloat.sqrt
    (np_sum_f64 (mk_array (shape0 M) (shape1 M)
                   (fun i j => PrimFloat.mul (PrimFloat.abs (item M i j))
                                             (PrimFloat.abs (item M i j))))).

Definition masked_error_f64 (X Theta Y : ndarray float) (has_rating : ndarray bool)
  : result (ndarray float) :=
  (P <- matmul_f64 X (transpose Theta) ;;
   D <- subtract_f64 P Y ;;
   multiply_mask_f64 D has_rating)%result.

Definition compute_cost_f64 (X Theta Y : ndarray float) (has_rating : ndarray bool)
    (reg : float) : result float :=
  (error <- masked_error_f64 X Theta Y has_rating ;;
   G <- matmul_f64 error (transpose error) ;;
   let squared_diff := PrimFloat.div (np_sum_f64 G) PrimFloat.two in
   let penalty :=
     PrimFloat.mul (PrimFloat.div reg PrimFloat.two)
       (PrimFloat.add (PrimFloat.mul (norm_f64 X) (norm_f64 X))
                      (PrimFloat.mul (norm_f64 Theta) (norm_f64 Theta))) in
   Ok (PrimFloat.add squared_diff penalty))%result.

Definition dX_f64 (X Theta Y : ndarray float) (has_rating : ndarray bool) (reg : float)
  : result (ndarray float) :=
  (E <- masked_error_f64 X Theta Y has_rating ;;
   M <- matmul_f64 E Theta ;;
   add_f64 M (scale_f64 reg X))%result.

Definition dTheta_f64 (X Theta Y : ndarray float) (has_rating : ndarray bool) (reg : float)
  : result (ndarray float) :=
  (E <- masked_error_f64 X Theta Y has_rating ;;
   M <- matmul_f64 (transpose E) X ;;
   add_f64 M (scale_f64 reg Theta))%result.

Definition update_f64 (X Theta Y : ndarray float) (has_rating : ndarray bool)
    (reg alpha : float) : result (ndarray float * ndarray float) :=
  (gX <- dX_f64 X Theta Y has_rating reg ;;
   gTheta <- dTheta_f64 X Theta Y has_rating reg ;;
   X' <- isub_f64 X (scale_f64 alpha gX) ;;
   Theta' <- isub_f64 Theta (scale_f64 alpha gTheta) ;;
   Ok (X', Theta'))%result.

(** The intended shapes, for binary64 arrays. *)
Definition conforming_f64 (X Theta Y : ndarray float) (has_rating : ndarray bool) : Prop :=
  shape1 X = shape1 Theta /\
  shape0 Y = shape0 X /\ shape1 Y = shape0 Theta /\
  shape0 has_rating = shape0 X /\ shape1 has_rating = shape0 Theta.

(** *** Binary64 inputs *)

(** One item, one user, one factor; the product of the factors, 2^1200,
    overflows. *)
Definition X_huge : ndarray float := np_array PrimFloat.zero [[0x1p+600%float]].
Definition Theta_huge : ndarray float := np_array PrimFloat.zero [[0x1p+600%float]].
Definition Y_zero_f64 : ndarray float := np_array PrimFloat.zero [[0%float]].

(** Factors whose squares, 2^-1200, underflow to 0.0. *)
Definition X_tiny : ndarray float := np_array PrimFloat.zero [[0x1p-600%float]].
Definition Theta_tiny : ndarray float := np_array PrimFloat.zero [[0x1p-600%float]].

(** A perfect fit 2^600 * 2^-600 = 1 with a factor whose square overflows. *)
Definition Y_one_f64 : ndarray float := np_array PrimFloat.zero [[1%float]].

(** Two items, one user, one factor, nothing rated 0: the two residuals
    are 1.3774599964441199 and -1.3774599964240752. *)
Definition X_cancel : ndarray float :=
  np_array PrimFloat.zero [[0x1.60a137e44698fp+0%float]; [(-0x1.60a137e4308eep+0)%float]].
Definition Theta_one_f64 : ndarray float := np_array PrimFloat.zero [[1%float]].
Definition Y_zeros_f64 : ndarray float := np_array PrimFloat.zero [[0%float]; [0%float]].

(** Two items with prediction 1, the first rated 2, the second unrated
    and holding the placeholder NaN or the placeholder 0. *)
Definition X_ones_f64 : ndarray float := np_array PrimFloat.zero [[1%float]; [1%float]].
Definition Y_nan_f64 : ndarray float := np_array PrimFloat.zero [[2%float]; [nan]].
Definition Y_first_f64 : ndarray float := np_array PrimFloat.zero [[2%float]; [0%float]].

(** * Proofs *)

(** ** Finite sums *)

Lemma sum_n_ext (n : nat) (f g : nat -> R) :
  (forall i, (i < n)%nat -> f i = g i) -> sum_n n f = sum_n n g.
Proof.
  induction n as [|n IH]; intros H; simpl; [reflexivity|].
  rewrite IH by (intros; apply H; lia).
  rewrite H by lia. reflexivity.
Qed.

Lemma sum_n_zero (n : nat) : sum_n n (fun _ => 0) = 0.
Proof. induction n as [|n IH]; simpl; [|rewrite IH]; lra. Qed.

Lemma sum_n_plus (n : nat) (f g : nat -> R) :
  sum_n n (fun i => f i + g i) = sum_n n f + sum_n n g.
Proof. induction n as [|n IH]; simpl; [|rewrite IH]; lra. Qed.

Lemma sum_n_scal_l (n : nat) (c : R) (f : nat -> R) :
  sum_n n (fun i => c * f i) = c * sum_n n f.
Proof. induction n as [|n IH]; simpl; [|rewrite IH]; lra. Qed.

Lemma sum_n_scal_r (n : nat) (c : R) (f : nat -> R) :
  sum_n n (fun i => f i * c) = sum_n n f * c.
Proof. induction n as [|n IH]; simpl; [|rewrite IH]; lra. Qed.

Lemma sum_n_swap (n m : nat) (f : nat -> nat -> R) :
  sum_n n (fun i => sum_n m (fun j => f i j)) =
  sum_n m (fun j => sum_n n (fun i => f i j)).
Proof.
  induction n as [|n IH]; simpl.
  - symmetry. apply sum_n_zero.
  - rewrite IH, <- sum_n_plus. reflexivity.
Qed.

Lemma sum_n_nonneg (n : nat) (f : nat -> R) :
  (forall i, (i < n)%nat -> 0 <= f i) -> 0 <= sum_n n f.
Proof.
  induction n as [|n IH]; intros H; simpl; [lra|].
  assert (0 <= sum_n n f) by (apply IH; intros; apply H; lia).
  assert (0 <= f n) by (apply H; lia). lra.
Qed.

Lemma sum_n_nonneg_eq0 (n : nat) (f : nat -> R) :
  (forall i, (i < n)%nat -> 0 <= f i) -> sum_n n f = 0 ->
  forall i, (i < n)%nat -> f i = 0.
Proof.
  induction n as [|n IH]; intros H Hs i Hi; [lia|].
  simpl in Hs.
  assert (0 <= sum_n n f) by (apply sum_n_nonneg; intros; apply H; lia).
  assert (0 <= f n) by (apply H; lia).
  destruct (Nat.eq_dec i n) as [->|Hne]; [lra|].
  apply IH; [intros; apply H; lia | lra | lia].
Qed.

(** The sum of all pairwise products is the square of the sum. *)
Lemma sum_n_square (n : nat) (f : nat -> R) :
  sum_n n (fun i => sum_n n (fun i' => f i * f i')) = sum_n n f * sum_n n f.
Proof.
  rewrite <- sum_n_scal_r. apply sum_n_ext; intros i _.
  apply sum_n_scal_l.
Qed.

(** [np.sum(E @ E.T)] is the sum of the squared column sums of [E]. *)
Lemma sum_gram (n m : nat) (e : nat -> nat -> R) :
  sum_n n (fun i => sum_n n (fun i' => sum_n m (fun j => e i j * e i' j))) =
  sum_n m (fun j => sum_n n (fun i => e i j) * sum_n n (fun i => e i j)).
Proof.
  transitivity (sum_n n (fun i => sum_n m (fun j => sum_n n (fun i' => e i j * e i' j)))).
  { apply sum_n_ext; intros i _. apply sum_n_swap. }
  rewrite sum_n_swap. apply sum_n_ext; intros j _.
  apply (sum_n_square n (fun i => e i j)).
Qed.

Lemma sum_n_pick (n i : nat) (a : nat -> R) :
  (i < n)%nat ->
  sum_n n (fun i' => if (i' =? i)%nat then a i' else 0) = a i.
Proof.
  induction n as [|n IH]; intros Hi; [lia|]. cbn [sum_n].
  destruct (Nat.eqb_spec n i) as [->|Hne].
  - rewrite (sum_n_ext _ _ (fun _ => 0)).
    + rewrite sum_n_zero. ring.
    + intros i' Hi'. destruct (Nat.eqb_spec i' i); [lia | reflexivity].
  - rewrite IH by lia. ring.
Qed.

(** Sum of squares of a perturbed family. *)
Lemma sum_n_square_perturbed (n m : nat) (e p : nat -> nat -> R) :
  sum_n n (fun i => sum_n m (fun j => (e i j + p i j) * (e i j + p i j))) =
  sum_n n (fun i => sum_n m (fun j => e i j * e i j))
  + sum_n n (fun i => sum_n m (fun j => 2 * e i j * p i j + p i j * p i j)).
Proof.
  rewrite <- sum_n_plus. apply sum_n_ext; intros i _.
  rewrite <- sum_n_plus. apply sum_n_ext; intros j _. ring.
Qed.

(** A family of squares perturbed in row [i] only. *)
Lemma sum_n_perturbed_row (n m i : nat) (e : nat -> nat -> R) (c : nat -> R) (h : R) :
  (i < n)%nat ->
  sum_n n (fun i' => sum_n m (fun j =>
    (e i' j + (if (i' =? i)%nat then h * c j else 0))
    * (e i' j + (if (i' =? i)%nat then h * c j else 0)))) =
  sum_n n (fun i' => sum_n m (fun j => e i' j * e i' j))
  + h * (2 * sum_n m (fun j => e i j * c j))
  + h * h * sum_n m (fun j => c j * c j).
Proof.
  intros Hi.
  rewrite (sum_n_square_perturbed n m e (fun i' j => if (i' =? i)%nat then h * c j else 0)).
  rewrite Rplus_assoc. f_equal.
  rewrite (sum_n_ext n _ (fun i' => if (i' =? i)%nat
             then sum_n m (fun j => 2 * e i' j * (h * c j) + h * c j * (h * c j))
             else 0)).
  - rewrite sum_n_pick by exact Hi.
    rewrite (sum_n_ext m _ (fun j => h * (2 * (e i j * c j)) + h * h * (c j * c j)))
      by (intros; ring).
    rewrite sum_n_plus, !sum_n_scal_l. ring.
  - intros i' _. destruct (Nat.eqb_spec i' i); [reflexivity|].
    rewrite (sum_n_ext m _ (fun _ => 0)) by (intros; ring). apply sum_n_zero.
Qed.

(** The same for a perturbation of column [j]. *)
Lemma sum_n_perturbed_column (n m j : nat) (e : nat -> nat -> R) (c : nat -> R) (h : R) :
  (j < m)%nat ->
  sum_n n (fun i => sum_n m (fun j' =>
    (e i j' + (if (j' =? j)%nat then h * c i else 0))
    * (e i j' + (if (j' =? j)%nat then h * c i else 0)))) =
  sum_n n (fun i => sum_n m (fun j' => e i j' * e i j'))
  + h * (2 * sum_n n (fun i => e i j * c i))
  + h * h * sum_n n (fun i => c i * c i).
Proof.
  intros Hj.
  rewrite (sum_n_swap n m), (sum_n_swap n m (fun i j' => e i j' * e i j')).
  apply (sum_n_perturbed_row m n j (fun j' i => e i j') c h Hj).
Qed.

(** ** Shapes and entries under broadcasting *)

Lemma stretch_id (n i : nat) : (i < n)%nat -> stretch n i = i.
Proof.
  unfold stretch; intros H. destruct (Nat.eqb_spec n 1); [lia | reflexivity].
Qed.

Lemma broadcast_dim_refl (n : nat) : broadcast_dim n n = Ok n.
Proof. unfold broadcast_dim. rewrite Nat.eqb_refl. reflexivity. Qed.

Lemma broadcast2_same_shape {A B C : Type} (f : A -> B -> C)
    (M : ndarray A) (N : ndarray B) :
  shape0 N = shape0 M -> shape1 N = shape1 M ->
  exists D, broadcast2 f M N = Ok D /\
    shape0 D = shape0 M /\ shape1 D = shape1 M /\
    forall i j, (i < shape0 M)%nat -> (j < shape1 M)%nat ->
      item D i j = f (item M i j) (item N i j).
Proof.
  intros H0 H1. unfold broadcast2. rewrite H0, H1, !broadcast_dim_refl. simpl.
  eexists; split; [reflexivity|]. simpl. repeat split.
  intros i j Hi Hj. rewrite !stretch_id by assumption. reflexivity.
Qed.

Lemma isub_same_shape (M N : ndarray R) :
  shape0 N = shape0 M -> shape1 N = shape1 M ->
  exists D, isub M N = Ok D /\
    shape0 D = shape0 M /\ shape1 D = shape1 M /\
    forall i j, (i < shape0 M)%nat -> (j < shape1 M)%nat ->
      item D i j = item M i j - item N i j.
Proof.
  intros H0 H1.
  destruct (broadcast2_same_shape Rminus M N H0 H1) as (D & HD & HD0 & HD1 & HDi).
  unfold isub, subtract. rewrite HD. cbn [bind_result].
  rewrite HD0, HD1, !Nat.eqb_refl. simpl.
  exists D. auto.
Qed.

(** Whatever the shapes, an in-place subtraction that succeeds keeps the
    shape of its target. *)
Lemma isub_shape (M N D : ndarray R) :
  isub M N = Ok D -> shape0 D = shape0 M /\ shape1 D = shape1 M.
Proof.
  unfold isub. destruct (subtract M N) as [D'|]; cbn [bind_result]; [|discriminate].
  destruct (Nat.eqb_spec (shape0 D') (shape0 M)); [|discriminate].
  destruct (Nat.eqb_spec (shape1 D') (shape1 M)); [|discriminate].
  simpl. intros H; injection H as <-. auto.
Qed.

Lemma broadcast_dim_spec (m n : nat) :
  broadcast_dim m n = if compatible m n then Ok (stretched m n) else ValueError.
Proof.
  unfold broadcast_dim, compatible, stretched.
  destruct (Nat.eqb_spec m n), (Nat.eqb_spec m 1), (Nat.eqb_spec n 1);
    simpl; try reflexivity; f_equal; lia.
Qed.

Lemma broadcast2_spec {A B C : Type} (f : A -> B -> C) (M : ndarray A) (N : ndarray B) :
  if compatible (shape0 M) (shape0 N) && compatible (shape1 M) (shape1 N)
  then exists D, broadcast2 f M N = Ok D /\
         shape0 D = stretched (shape0 M) (shape0 N) /\
         shape1 D = stretched (shape1 M) (shape1 N)
  else broadcast2 f M N = ValueError.
Proof.
  unfold broadcast2. rewrite !broadcast_dim_spec.
  destruct (compatible (shape0 M) (shape0 N)); simpl; [|reflexivity].
  destruct (compatible (shape1 M) (shape1 N)); simpl; [|reflexivity].
  eexists. split; [reflexivity|]. simpl. auto.
Qed.

(** ** Norms *)

Lemma frobenius2_nonneg (M : ndarray R) : 0 <= frobenius2 M.
Proof.
  unfold frobenius2. apply sum_n_nonneg; intros i _.
  apply sum_n_nonneg; intros j _. nra.
Qed.

Lemma norm_pow2 (M : ndarray R) : norm M ^ 2 = frobenius2 M.
Proof.
  unfold norm, np_sum. cbn [shape0 shape1 item].
  assert (Heq : sum_n (shape0 M) (fun i => sum_n (shape1 M) (fun j => Rabs (item M i j) ^ 2))
                = frobenius2 M).
  { unfold frobenius2. apply sum_n_ext; intros i _. apply sum_n_ext; intros j _.
    rewrite pow2_abs. ring. }
  rewrite Heq. apply pow2_sqrt, frobenius2_nonneg.
Qed.

Lemma frobenius2_zero_iff (M : ndarray R) : frobenius2 M = 0 <-> all_zero M.
Proof.
  unfold frobenius2, all_zero. split.
  - intros H i j Hi Hj.
    assert (Hrow : sum_n (shape1 M) (fun j => item M i j * item M i j) = 0).
    { apply (sum_n_nonneg_eq0 _ _
               (fun i _ => sum_n_nonneg _ _ (fun j _ => Rle_0_sqr (item M i j))) H i Hi). }
    pose proof (sum_n_nonneg_eq0 _ _ (fun j _ => Rle_0_sqr (item M i j)) Hrow j Hj) as Hz.
    cbv beta in Hz. unfold Rsqr in Hz. nra.
  - intros H.
    rewrite (sum_n_ext _ _ (fun _ => 0)); [apply sum_n_zero|].
    intros i Hi. rewrite (sum_n_ext _ _ (fun _ => 0)); [apply sum_n_zero|].
    intros j Hj. rewrite H by assumption. ring.
Qed.

Lemma column_sum_squares_nonneg X Theta Y has_rating :
  0 <= column_sum_squares X Theta Y has_rating.
Proof.
  unfold column_sum_squares. apply sum_n_nonneg; intros j _. nra.
Qed.

(** ** The three functions on conforming shapes *)

Section Conforming.

Variables (X Theta Y : ndarray R) (has_rating : ndarray bool) (reg alpha : R).
Hypothesis Hconf : conforming X Theta Y has_rating.

(** The masked error is an (ni,nu) array whose (i,j) entry is the masked
    residual of the prediction. *)
Lemma masked_error_conforming :
  exists E, masked_error X Theta Y has_rating = Ok E /\
    shape0 E = shape0 X /\ shape1 E = shape0 Theta /\
    forall i j, (i < shape0 X)%nat -> (j < shape0 Theta)%nat ->
      item E i j = residual X Theta Y has_rating i j.
Proof.
  destruct Hconf as (Hk & HY0 & HY1 & HR0 & HR1).
  unfold masked_error, matmul. simpl. rewrite Hk, Nat.eqb_refl. simpl.
  set (P := mk_array _ _ _).
  destruct (broadcast2_same_shape Rminus P Y) as (D & HD & HD0 & HD1 & HDi);
    [exact HY0 | exact HY1 |].
  unfold subtract. rewrite HD. simpl.
  destruct (broadcast2_same_shape (fun x b => x * float_of_bool b) D has_rating)
    as (E & HE & HE0 & HE1 & HEi); [simpl in *; congruence | simpl in *; congruence |].
  unfold multiply_mask. rewrite HE.
  exists E. simpl in *. repeat split; try congruence.
  intros i j Hi Hj. rewrite HEi, HDi by congruence.
  unfold residual, P. simpl. rewrite Hk. reflexivity.
Qed.

(** What [compute_cost] returns: half the sum of the squared column sums
    of the masked residuals, plus the penalty. *)
Lemma compute_cost_conforming :
  compute_cost X Theta Y has_rating reg =
  Ok (column_sum_squares X Theta Y has_rating / 2
      + reg / 2 * (frobenius2 X + frobenius2 Theta)).
Proof.
  destruct masked_error_conforming as (E & HE & HE0 & HE1 & HEi).
  unfold compute_cost. rewrite HE. cbn [bind_result].
  unfold matmul. cbn [transpose shape0 shape1 item]. rewrite Nat.eqb_refl.
  cbn [bind_result]. rewrite !norm_pow2. unfold np_sum. cbn [shape0 shape1 item].
  rewrite sum_gram. unfold column_sum_squares.
  rewrite HE0, HE1.
  do 3 f_equal.
  apply sum_n_ext; intros j Hj.
  rewrite (sum_n_ext _ _ (fun i => residual X Theta Y has_rating i j))
    by (intros i Hi; apply HEi; assumption).
  reflexivity.
Qed.

Lemma dX_conforming :
  exists g, dX X Theta Y has_rating reg = Ok g /\
    shape0 g = shape0 X /\ shape1 g = shape1 X /\
    forall i l, (i < shape0 X)%nat -> (l < shape1 X)%nat ->
      item g i l =
      sum_n (shape0 Theta) (fun j => residual X Theta Y has_rating i j * item Theta j l)
      + reg * item X i l.
Proof.
  destruct masked_error_conforming as (E & HE & HE0 & HE1 & HEi).
  destruct Hconf as (Hk & _).
  unfold dX. rewrite HE. cbn [bind_result].
  unfold matmul. rewrite HE1, Nat.eqb_refl. cbn [bind_result].
  set (M := mk_array _ _ _).
  destruct (broadcast2_same_shape Rplus M (scale reg X)) as (g & Hg & Hg0 & Hg1 & Hgi);
    [simpl; congruence | simpl; congruence |].
  unfold add. rewrite Hg.
  exists g. simpl in Hg0, Hg1, Hgi.
  split; [reflexivity|]. split; [congruence|]. split; [congruence|].
  intros i l Hi Hl. rewrite Hgi by congruence.
  unfold M. simpl. f_equal.
  apply sum_n_ext; intros j Hj. rewrite HEi by assumption. reflexivity.
Qed.

Lemma dTheta_conforming :
  exists g, dTheta X Theta Y has_rating reg = Ok g /\
    shape0 g = shape0 Theta /\ shape1 g = shape1 Theta /\
    forall j l, (j < shape0 Theta)%nat -> (l < shape1 Theta)%nat ->
      item g j l =
      sum_n (shape0 X) (fun i => residual X Theta Y has_rating i j * item X i l)
      + reg * item Theta j l.
Proof.
  destruct masked_error_conforming as (E & HE & HE0 & HE1 & HEi).
  destruct Hconf as (Hk & _).
  unfold dTheta. rewrite HE. cbn [bind_result].
  unfold matmul. cbn [transpose shape0 shape1 item].
  rewrite HE0, Nat.eqb_refl. cbn [bind_result].
  set (M := mk_array _ _ _).
  destruct (broadcast2_same_shape Rplus M (scale reg Theta)) as (g & Hg & Hg0 & Hg1 & Hgi);
    [simpl; congruence | simpl; congruence |].
  unfold add. rewrite Hg.
  exists g. simpl in Hg0, Hg1, Hgi.
  split; [reflexivity|]. split; [congruence|]. split; [congruence|].
  intros j l Hj Hl. rewrite Hgi by congruence.
  unfold M. simpl. f_equal.
  apply sum_n_ext; intros i Hi. rewrite HEi by assumption. reflexivity.
Qed.

(** [update] returns, keeps both shapes and subtracts [alpha] times the
    two gradients entry by entry. *)
Lemma update_conforming :
  exists gX gTheta X' Theta',
    dX X Theta Y has_rating reg = Ok gX /\
    dTheta X Theta Y has_rating reg = Ok gTheta /\
    update X Theta Y has_rating reg alpha = Ok (X', Theta') /\
    (shape0 X' = shape0 X /\ shape1 X' = shape1 X) /\
    (shape0 Theta' = shape0 Theta /\ shape1 Theta' = shape1 Theta) /\
    (forall i l, (i < shape0 X)%nat -> (l < shape1 X)%nat ->
       item X' i l = item X i l - alpha * item gX i l) /\
    (forall j l, (j < shape0 Theta)%nat -> (l < shape1 Theta)%nat ->
       item Theta' j l = item Theta j l - alpha * item gTheta j l).
Proof.
  destruct dX_conforming as (gX & HgX & HgX0 & HgX1 & _).
  destruct dTheta_conforming as (gT & HgT & HgT0 & HgT1 & _).
  destruct (isub_same_shape X (scale alpha gX)) as (X' & HX' & HX0 & HX1 & HXi);
    [exact HgX0 | exact HgX1 |].
  destruct (isub_same_shape Theta (scale alpha gT)) as (T' & HT' & HT0 & HT1 & HTi);
    [exact HgT0 | exact HgT1 |].
  exists gX, gT, X', T'.
  unfold update. rewrite HgX, HgT. cbn [bind_result]. rewrite HX', HT'. cbn [bind_result].
  repeat split; auto.
Qed.

End Conforming.

Ltac conforming_by_computation :=
  unfold conforming; simpl; repeat split; reflexivity.

(** ** The value of compute_cost *)

(** C1 (the code departs from the documented cost).  The claim is that
    [compute_cost] returns 1/2 * sum of the squared masked residuals plus
    the penalty, i.e. the documented [J].  [np.sum(error @ error.T)] adds
    every entry of the product, not only its diagonal: on two items with
    residual -1 each and one user, the code returns 2 where [J] is 1. *)
Theorem compute_cost_differs_from_J :
  conforming X_two Theta_one Y_two rated_two /\
  compute_cost X_two Theta_one Y_two rated_two 0 = Ok 2 /\
  J X_two Theta_one Y_two rated_two 0 = 1.
Proof.
  split; [conforming_by_computation|]. split.
  - rewrite compute_cost_conforming by conforming_by_computation.
    unfold column_sum_squares, frobenius2, residual. simpl. f_equal. lra.
  - unfold J, frobenius2, residual. simpl. lra.
Qed.

(** C6, amended.  In exact arithmetic (real-valued entries, no rounding,
    no overflow), with conforming shapes and [reg >= 0], [compute_cost]
    returns a value and that value is non-negative.  The binary64 result
    need not be: see the section on binary64 below. *)
Theorem compute_cost_nonneg X Theta Y has_rating reg :
  conforming X Theta Y has_rating -> 0 <= reg ->
  exists c, compute_cost X Theta Y has_rating reg = Ok c /\ 0 <= c.
Proof.
  intros Hc Hreg. eexists. split; [apply compute_cost_conforming, Hc|].
  pose proof (column_sum_squares_nonneg X Theta Y has_rating).
  pose proof (frobenius2_nonneg X). pose proof (frobenius2_nonneg Theta).
  nra.
Qed.

Lemma compute_cost_nonneg_witness :
  exists c, compute_cost X_two Theta_one Y_two rated_two 3 = Ok c /\ 0 <= c.
Proof.
  apply compute_cost_nonneg; [conforming_by_computation | lra].
Defined.

Lemma residual_reconstructed X Theta Y has_rating :
  exactly_reconstructed X Theta Y has_rating ->
  forall i j, (i < shape0 X)%nat -> (j < shape0 Theta)%nat ->
    residual X Theta Y has_rating i j = 0.
Proof.
  intros H i j Hi Hj. unfold residual.
  destruct (item has_rating i j) eqn:Hr; simpl; [|ring].
  rewrite (H i j Hi Hj Hr). ring.
Qed.

Lemma column_sum_squares_zero X Theta Y has_rating :
  (forall i j, (i < shape0 X)%nat -> (j < shape0 Theta)%nat ->
     residual X Theta Y has_rating i j = 0) ->
  column_sum_squares X Theta Y has_rating = 0.
Proof.
  intros H. unfold column_sum_squares.
  rewrite (sum_n_ext _ _ (fun _ => 0)); [apply sum_n_zero|].
  intros j Hj.
  rewrite (sum_n_ext _ _ (fun _ => 0)) by (intros i Hi; apply H; assumption).
  rewrite sum_n_zero. ring.
Qed.

(** C2 as stated fails: with [reg = 1], all-zero factors and nothing
    rated the cost is exactly zero although [reg] is not 0. *)
Lemma compute_cost_zero_iff_counterexample :
  conforming X_zero Theta_zero Y_zero rated_none /\ 0 <= 1 /\
  ~ (compute_cost X_zero Theta_zero Y_zero rated_none 1 = Ok 0 <->
     1 = 0 /\ exactly_reconstructed X_zero Theta_zero Y_zero rated_none).
Proof.
  split; [conforming_by_computation|]. split; [lra|].
  intros [H _].
  assert (Hcost : compute_cost X_zero Theta_zero Y_zero rated_none 1 = Ok 0).
  { rewrite compute_cost_conforming by conforming_by_computation.
    unfold column_sum_squares, frobenius2, residual. simpl. f_equal. lra. }
  destruct (H Hcost) as [Habs _]. lra.
Qed.

(** C2, amended.  In exact arithmetic (real-valued entries, no rounding,
    overflow or underflow), with conforming shapes and [reg >= 0]: if
    every rated entry is exactly reconstructed and either [reg = 0] or [X]
    and [Theta] are entirely zero, [compute_cost] returns exactly zero;
    and if it returns exactly zero then [reg = 0] or [X] and [Theta] are
    entirely zero.  In binary64 both halves have exceptions, by overflow
    and by underflow: see the section on binary64 below. *)
Theorem compute_cost_zero X Theta Y has_rating reg :
  conforming X Theta Y has_rating -> 0 <= reg ->
  (exactly_reconstructed X Theta Y has_rating ->
   reg = 0 \/ (all_zero X /\ all_zero Theta) ->
   compute_cost X Theta Y has_rating reg = Ok 0) /\
  (compute_cost X Theta Y has_rating reg = Ok 0 ->
   reg = 0 \/ (all_zero X /\ all_zero Theta)).
Proof.
  intros Hc Hreg. rewrite (compute_cost_conforming _ _ _ _ _ Hc).
  pose proof (column_sum_squares_nonneg X Theta Y has_rating) as Hs.
  pose proof (frobenius2_nonneg X) as HX. pose proof (frobenius2_nonneg Theta) as HT.
  split.
  - intros Hrec Hpen.
    rewrite (column_sum_squares_zero _ _ _ _ (residual_reconstructed _ _ _ _ Hrec)).
    f_equal. destruct Hpen as [-> | [HzX HzT]]; [lra|].
    apply frobenius2_zero_iff in HzX, HzT. rewrite HzX, HzT. lra.
  - intros H. injection H as H.
    destruct (Req_dec reg 0) as [Hz | Hnz]; [left; exact Hz | right].
    assert (Hpos : 0 < reg) by lra.
    assert (Hsum : frobenius2 X + frobenius2 Theta = 0) by nra.
    split; apply frobenius2_zero_iff; lra.
Qed.

Lemma compute_cost_zero_witness :
  (exactly_reconstructed X_zero Theta_zero Y_zero rated_none ->
   1 = 0 \/ (all_zero X_zero /\ all_zero Theta_zero) ->
   compute_cost X_zero Theta_zero Y_zero rated_none 1 = Ok 0) /\
  (compute_cost X_zero Theta_zero Y_zero rated_none 1 = Ok 0 ->
   1 = 0 \/ (all_zero X_zero /\ all_zero Theta_zero)).
Proof.
  apply compute_cost_zero; [conforming_by_computation | lra].
Defined.

(** ** The update step *)

Lemma update_shape X Theta Y has_rating reg alpha X' Theta' :
  update X Theta Y has_rating reg alpha = Ok (X', Theta') ->
  (shape0 X' = shape0 X /\ shape1 X' = shape1 X) /\
  (shape0 Theta' = shape0 Theta /\ shape1 Theta' = shape1 Theta).
Proof.
  unfold update.
  destruct (dX X Theta Y has_rating reg) as [gX|]; cbn [bind_result]; [|discriminate].
  destruct (dTheta X Theta Y has_rating reg) as [gT|]; cbn [bind_result]; [|discriminate].
  destruct (isub X (scale alpha gX)) as [X1|] eqn:HX; cbn [bind_result]; [|discriminate].
  destruct (isub Theta (scale alpha gT)) as [T1|] eqn:HT; cbn [bind_result]; [|discriminate].
  intros H; injection H as <- <-.
  split; [apply (isub_shape _ _ _ HX) | apply (isub_shape _ _ _ HT)].
Qed.

(** On two distinct arrays the in-place update leaves in the store what
    [update] computes from their contents, and touches nothing else. *)
Lemma update_in_place_distinct h pX pTheta Y has_rating reg alpha :
  pX <> pTheta ->
  update_in_place h pX pTheta Y has_rating reg alpha =
  (s <- update (h pX) (h pTheta) Y has_rating reg alpha ;;
   Ok (write (write h pX (fst s)) pTheta (snd s)))%result.
Proof.
  intros Hne. unfold update_in_place, update.
  destruct (dX (h pX) (h pTheta) Y has_rating reg) as [gX|]; cbn [bind_result]; [|reflexivity].
  destruct (dTheta (h pX) (h pTheta) Y has_rating reg) as [gT|];
    cbn [bind_result]; [|reflexivity].
  destruct (isub (h pX) (scale alpha gX)) as [X'|]; cbn [bind_result]; [|reflexivity].
  assert (Hread : write h pX X' pTheta = h pTheta).
  { unfold write. destruct (Nat.eqb_spec pTheta pX); [congruence | reflexivity]. }
  rewrite Hread.
  destruct (isub (h pTheta) (scale alpha gT)) as [T'|]; cbn [bind_result]; reflexivity.
Qed.

(** C7.  With conforming shapes [update] returns [X' = X - alpha * dX] and
    [Theta' = Theta - alpha * dTheta], where [dX] and [dTheta] are the two
    gradient lines evaluated on the factors as passed in: entry (j,l) of
    [dTheta] is the sum over the items [i] of the masked residual of the
    old [X] and [Theta] times the old [X[i,l]], plus [reg * Theta[j,l]],
    and likewise for [dX].  Run in place on two distinct arrays holding
    [X] and [Theta], the four statements leave exactly these [X'] and
    [Theta'] in them.  (Nothing here needs [reg >= 0] or [alpha > 0].) *)
Theorem update_single_snapshot X Theta Y has_rating reg alpha :
  conforming X Theta Y has_rating ->
  exists X' Theta',
    update X Theta Y has_rating reg alpha = Ok (X', Theta') /\
    shape X' = shape X /\ shape Theta' = shape Theta /\
    (forall i l, (i < shape0 X)%nat -> (l < shape1 X)%nat ->
       item X' i l =
       item X i l
       - alpha * (sum_n (shape0 Theta) (fun j =>
                    residual X Theta Y has_rating i j * item Theta j l)
                  + reg * item X i l)) /\
    (forall j l, (j < shape0 Theta)%nat -> (l < shape1 Theta)%nat ->
       item Theta' j l =
       item Theta j l
       - alpha * (sum_n (shape0 X) (fun i =>
                    residual X Theta Y has_rating i j * item X i l)
                  + reg * item Theta j l)) /\
    (forall h pX pTheta, pX <> pTheta -> h pX = X -> h pTheta = Theta ->
       update_in_place h pX pTheta Y has_rating reg alpha =
       Ok (write (write h pX X') pTheta Theta')).
Proof.
  intros Hc.
  destruct (update_conforming X Theta Y has_rating reg alpha Hc)
    as (gX & gT & X' & T' & HgX & HgT & Hu & [HX0 HX1] & [HT0 HT1] & HXi & HTi).
  destruct (dX_conforming X Theta Y has_rating reg Hc) as (gX2 & HgX2 & _ & _ & HgXi).
  destruct (dTheta_conforming X Theta Y has_rating reg Hc) as (gT2 & HgT2 & _ & _ & HgTi).
  assert (gX2 = gX) by congruence. assert (gT2 = gT) by congruence. subst gX2 gT2.
  exists X', T'. split; [exact Hu|].
  unfold shape. split; [congruence|]. split; [congruence|]. split; [|split].
  - intros i l Hi Hl. rewrite HXi, HgXi by assumption. reflexivity.
  - intros j l Hj Hl. rewrite HTi, HgTi by assumption. reflexivity.
  - intros h pX pTheta Hne HX HT.
    rewrite (update_in_place_distinct h pX pTheta _ _ _ _ Hne), HX, HT, Hu.
    reflexivity.
Qed.

Lemma update_single_snapshot_witness :
  exists X' Theta',
    update X_two Theta_one Y_two rated_two 0 (1/2) = Ok (X', Theta') /\
    shape X' = shape X_two /\ shape Theta' = shape Theta_one /\
    (forall j l, (j < shape0 Theta_one)%nat -> (l < shape1 Theta_one)%nat ->
       item Theta' j l =
       item Theta_one j l
       - 1/2 * (sum_n (shape0 X_two) (fun i =>
                    residual X_two Theta_one Y_two rated_two i j * item X_two i l)
                  + 0 * item Theta_one j l)).
Proof.
  destruct (update_single_snapshot X_two Theta_one Y_two rated_two 0 (1/2))
    as (X' & T' & Hu & HX & HT & _ & HTi & _).
  - conforming_by_computation.
  - exists X', T'. auto.
Defined.

(** A concrete step: two items with prediction 1 and rating 2, one user,
    [reg = 0], [alpha = 1/2].  [dX] is [[-1],[-1]] and [dTheta] is [[-2]],
    both from the old factors. *)
Example update_two_items :
  exists X' Theta',
    update X_two Theta_one Y_two rated_two 0 (1/2) = Ok (X', Theta') /\
    item X' 0%nat 0%nat = 3/2 /\ item X' 1%nat 0%nat = 3/2 /\
    item Theta' 0%nat 0%nat = 2.
Proof.
  eexists _, _. split; [reflexivity|]. simpl. repeat split; lra.
Qed.

(** ** Masking *)

Lemma residual_agree X Theta Y Y' has_rating i j :
  (item has_rating i j = true -> item Y' i j = item Y i j) ->
  residual X Theta Y' has_rating i j = residual X Theta Y has_rating i j.
Proof.
  intros H. unfold residual.
  destruct (item has_rating i j); simpl; [rewrite H by reflexivity; reflexivity | ring].
Qed.

Lemma residual_unrated X Theta Y has_rating i j :
  item has_rating i j = false -> residual X Theta Y has_rating i j = 0.
Proof. intros H. unfold residual. rewrite H. simpl. ring. Qed.

(** C5, amended.  For ratings arrays whose entries are all finite numbers
    (no NaN, no infinity) and in exact arithmetic: let [Y] and [Y'] have
    the same shape and agree wherever [has_rating] is true.  Then
    [compute_cost] returns the same value on both, both gradient lines
    give the same arrays, and [update] returns the same [X'] and [Theta'].
    When [has_rating] is false everywhere, [compute_cost] is exactly
    [reg/2 * (|X|_F^2 + |Theta|_F^2)], whatever finite numbers [Y]
    holds. *)
Theorem unrated_entries_do_not_matter X Theta Y Y' has_rating reg alpha :
  conforming X Theta Y has_rating ->
  shape Y' = shape Y ->
  (forall i j, (i < shape0 Y)%nat -> (j < shape1 Y)%nat ->
     item has_rating i j = true -> item Y' i j = item Y i j) ->
  compute_cost X Theta Y' has_rating reg = compute_cost X Theta Y has_rating reg /\
  (exists g g', dX X Theta Y has_rating reg = Ok g /\
                dX X Theta Y' has_rating reg = Ok g' /\ array_eq g g') /\
  (exists g g', dTheta X Theta Y has_rating reg = Ok g /\
                dTheta X Theta Y' has_rating reg = Ok g' /\ array_eq g g') /\
  (exists X1 Theta1 X2 Theta2,
     update X Theta Y has_rating reg alpha = Ok (X1, Theta1) /\
     update X Theta Y' has_rating reg alpha = Ok (X2, Theta2) /\
     array_eq X1 X2 /\ array_eq Theta1 Theta2) /\
  ((forall i j, (i < shape0 Y)%nat -> (j < shape1 Y)%nat ->
      item has_rating i j = false) ->
   compute_cost X Theta Y has_rating reg =
   Ok (reg / 2 * (frobenius2 X + frobenius2 Theta))).
Proof.
  intros Hc Hshape Hagree.
  assert (Hc' : conforming X Theta Y' has_rating).
  { unfold shape in Hshape. injection Hshape as H0 H1.
    destruct Hc as (Hk & HY0 & HY1 & HR). repeat split; try tauto; congruence. }
  assert (Hres : forall i j, (i < shape0 X)%nat -> (j < shape0 Theta)%nat ->
            residual X Theta Y' has_rating i j = residual X Theta Y has_rating i j).
  { intros i j Hi Hj. apply residual_agree. apply Hagree.
    - destruct Hc as (_ & -> & _). exact Hi.
    - destruct Hc as (_ & _ & -> & _). exact Hj. }
  destruct (update_conforming X Theta Y has_rating reg alpha Hc)
    as (gX & gT & X1 & T1 & HgX & HgT & Hu & [HX0 HX1] & [HT0 HT1] & HXi & HTi).
  destruct (update_conforming X Theta Y' has_rating reg alpha Hc')
    as (gX' & gT' & X2 & T2 & HgX' & HgT' & Hu' & [HX0' HX1'] & [HT0' HT1'] & HXi' & HTi').
  destruct (dX_conforming X Theta Y has_rating reg Hc) as (a & Ha & Ha0 & Ha1 & Hai).
  destruct (dX_conforming X Theta Y' has_rating reg Hc') as (a' & Ha' & Ha0' & Ha1' & Hai').
  destruct (dTheta_conforming X Theta Y has_rating reg Hc) as (b & Hb & Hb0 & Hb1 & Hbi).
  destruct (dTheta_conforming X Theta Y' has_rating reg Hc') as (b' & Hb' & Hb0' & Hb1' & Hbi').
  assert (a = gX) by congruence. assert (a' = gX') by congruence.
  assert (b = gT) by congruence. assert (b' = gT') by congruence. subst a a' b b'.
  assert (HeqX : array_eq gX gX').
  { split; [congruence|]. split; [congruence|].
    intros i l Hi Hl. rewrite Ha0 in Hi. rewrite Ha1 in Hl.
    rewrite Hai, Hai' by assumption. f_equal.
    apply sum_n_ext; intros j Hj. rewrite Hres by assumption. reflexivity. }
  assert (HeqT : array_eq gT gT').
  { split; [congruence|]. split; [congruence|].
    intros j l Hj Hl. rewrite Hb0 in Hj. rewrite Hb1 in Hl.
    rewrite Hbi, Hbi' by assumption. f_equal.
    apply sum_n_ext; intros i Hi. rewrite Hres by assumption. reflexivity. }
  split.
  { rewrite !compute_cost_conforming by assumption.
    do 3 f_equal. unfold column_sum_squares.
    apply sum_n_ext; intros j Hj.
    rewrite (sum_n_ext _ _ (fun i => residual X Theta Y has_rating i j))
      by (intros i Hi; apply Hres; assumption).
    reflexivity. }
  split; [exists gX, gX'; auto|].
  split; [exists gT, gT'; auto|].
  split.
  { exists X1, T1, X2, T2. split; [exact Hu|]. split; [exact Hu'|].
    destruct HeqX as (_ & _ & HeX). destruct HeqT as (_ & _ & HeT). split.
    - split; [congruence|]. split; [congruence|].
      intros i l Hi Hl. rewrite HX0 in Hi. rewrite HX1 in Hl.
      rewrite HXi, HXi' by assumption. rewrite HeX by congruence. reflexivity.
    - split; [congruence|]. split; [congruence|].
      intros j l Hj Hl. rewrite HT0 in Hj. rewrite HT1 in Hl.
      rewrite HTi, HTi' by assumption. rewrite HeT by congruence. reflexivity. }
  intros Hnone.
  rewrite compute_cost_conforming by assumption.
  rewrite column_sum_squares_zero.
  - f_equal. lra.
  - intros i j Hi Hj. apply residual_unrated. apply Hnone.
    + destruct Hc as (_ & -> & _). exact Hi.
    + destruct Hc as (_ & _ & -> & _). exact Hj.
Qed.

Lemma unrated_entries_do_not_matter_witness :
  compute_cost X_two Theta_one Y_other rated_first 1 =
  compute_cost X_two Theta_one Y_first rated_first 1.
Proof.
  apply (unrated_entries_do_not_matter X_two Theta_one Y_first Y_other rated_first 1 (1/2)).
  - conforming_by_computation.
  - reflexivity.
  - intros i j Hi Hj Hr. simpl in Hi, Hj.
    destruct i as [|[|i]]; destruct j as [|j];
      simpl in *; try lia; try reflexivity; discriminate.
Defined.

(** ** The training loop *)

Lemma conforming_same_shape X Theta X' Theta' Y has_rating :
  shape X' = shape X -> shape Theta' = shape Theta ->
  conforming X Theta Y has_rating -> conforming X' Theta' Y has_rating.
Proof.
  unfold shape, conforming. intros HX HT. injection HX as -> ->. injection HT as -> ->.
  tauto.
Qed.

Section Training.

Variables (Y : ndarray R) (has_rating : ndarray bool) (reg alpha : R).

Lemma updates_conforming n :
  forall X Theta, conforming X Theta Y has_rating ->
  exists X' Theta', updates Y has_rating reg alpha n (X, Theta) = Ok (X', Theta') /\
    shape X' = shape X /\ shape Theta' = shape Theta.
Proof.
  induction n as [|n IH]; intros X Theta Hc.
  - exists X, Theta. auto.
  - destruct (update_conforming X Theta Y has_rating reg alpha Hc)
      as (_ & _ & X1 & T1 & _ & _ & Hu & [HX0 HX1] & [HT0 HT1] & _).
    assert (HsX : shape X1 = shape X) by (unfold shape; congruence).
    assert (HsT : shape T1 = shape Theta) by (unfold shape; congruence).
    destruct (IH X1 T1 (conforming_same_shape _ _ _ _ _ _ HsX HsT Hc))
      as (X' & T' & Hn & HX' & HT').
    exists X', T'. cbn [updates fst snd]. rewrite Hu. cbn [bind_result].
    split; [exact Hn|]. split; congruence.
Qed.

Lemma loss_after_conforming n X Theta :
  conforming X Theta Y has_rating ->
  exists c, loss_after Y has_rating reg alpha n (X, Theta) = Ok c.
Proof.
  intros Hc.
  destruct (updates_conforming n X Theta Hc) as (X' & T' & Hn & HX & HT).
  unfold loss_after. rewrite Hn. cbn [bind_result fst snd].
  eexists. apply compute_cost_conforming.
  exact (conforming_same_shape _ _ _ _ _ _ HX HT Hc).
Qed.

Lemma first_or_hundredth (i : nat) :
  ((i =? 0)%nat || (i mod 100 =? 0)%nat) = reported i.
Proof. unfold reported. destruct i; [reflexivity | apply orb_false_l]. Qed.

(** The loop of [train] over [range(a, a+n)], started on conforming
    factors: it prints the cost of the current factors at the reported
    iterations and ends on the factors after [n] updates. *)
Lemma for_each_train_body n :
  forall a X Theta w, conforming X Theta Y has_rating ->
  for_each (seq a n) (train_body Y has_rating reg alpha) (X, Theta) w =
  (mk_world (np_random w)
     (stdout w ++
      map (fun i => (i, value_of (loss_after Y has_rating reg alpha (i - a) (X, Theta))))
          (filter reported (seq a n))),
   updates Y has_rating reg alpha n (X, Theta)).
Proof.
  induction n as [|n IH]; intros a X Theta w Hc.
  - cbn. rewrite app_nil_r. destruct w; reflexivity.
  - destruct (update_conforming X Theta Y has_rating reg alpha Hc)
      as (_ & _ & X1 & T1 & _ & _ & Hu & [HX0 HX1] & [HT0 HT1] & _).
    assert (Hc1 : conforming X1 T1 Y has_rating).
    { apply (conforming_same_shape X Theta); unfold shape; congruence. }
    assert (Htail :
      map (fun i => (i, value_of (loss_after Y has_rating reg alpha (i - a) (X, Theta))))
          (filter reported (seq (S a) n)) =
      map (fun i => (i, value_of (loss_after Y has_rating reg alpha (i - S a) (X1, T1))))
          (filter reported (seq (S a) n))).
    { apply map_ext_in. intros i Hi. apply filter_In in Hi as [Hi _].
      apply in_seq in Hi. replace (i - a)%nat with (S (i - S a)) by lia.
      unfold loss_after. cbn [updates fst snd]. rewrite Hu. reflexivity. }
    assert (Hhead :
      value_of (loss_after Y has_rating reg alpha 0 (X, Theta)) =
      column_sum_squares X Theta Y has_rating / 2
      + reg / 2 * (frobenius2 X + frobenius2 Theta)).
    { unfold loss_after. cbn [updates bind_result fst snd].
      rewrite (compute_cost_conforming _ _ _ _ reg Hc). reflexivity. }
    cbn [seq for_each filter map]. unfold bind_io at 1.
    unfold train_body at 1. rewrite first_or_hundredth.
    rewrite (compute_cost_conforming _ _ _ _ reg Hc).
    cbn [updates fst snd]. rewrite Hu. cbn [bind_result].
    destruct (reported a) eqn:Hrep.
    + unfold bind_io, lift, print. cbn [np_random stdout].
      rewrite (IH (S a) X1 T1 _ Hc1). cbn [np_random stdout].
      cbn [map]. rewrite Htail, Nat.sub_diag, Hhead.
      rewrite <- app_assoc. reflexivity.
    + unfold bind_io, lift, ret_io.
      rewrite (IH (S a) X1 T1 _ Hc1). rewrite Htail. reflexivity.
Qed.

(** The two draws at the start of [train]. *)
Lemma randn_twice ni nu k w :
  exists X0 Theta0 w1 w2,
    randn ni k w = (w1, Ok X0) /\ randn nu k w1 = (w2, Ok Theta0) /\
    shape X0 = (ni, k) /\ shape Theta0 = (nu, k) /\
    stdout w2 = stdout w /\
    (forall i l, item X0 i l = samples (np_random w) (drawn (np_random w) + i * k + l)%nat) /\
    (forall j l, item Theta0 j l =
       samples (np_random w) (drawn (np_random w) + ni * k + j * k + l)%nat).
Proof.
  unfold randn. eexists _, _, _, _.
  split; [reflexivity|]. split; [reflexivity|]. cbn. repeat split.
Qed.

(** [train] on a mask of the shape of [Y]: the full account. *)
Lemma train_spec k n w X0 Theta0 w1 w2 :
  shape has_rating = shape Y ->
  randn (shape0 Y) k w = (w1, Ok X0) -> randn (shape1 Y) k w1 = (w2, Ok Theta0) ->
  conforming X0 Theta0 Y has_rating /\
  train Y has_rating reg alpha k n w =
  (mk_world (np_random w2)
     (stdout w ++
      map (fun i => (i, value_of (loss_after Y has_rating reg alpha i (X0, Theta0))))
          (filter reported (seq 0 n))),
   updates Y has_rating reg alpha n (X0, Theta0)).
Proof.
  intros Hs H1 H2. unfold shape in Hs. injection Hs as Hs0 Hs1.
  assert (Hc : conforming X0 Theta0 Y has_rating).
  { unfold randn in H1, H2. injection H1 as <- <-. injection H2 as <- <-.
    unfold conforming. cbn. auto. }
  split; [exact Hc|].
  unfold train. unfold bind_io at 1. rewrite H1. unfold bind_io at 1. rewrite H2.
  rewrite (for_each_train_body n 0 X0 Theta0 w2 Hc).
  assert (Hout : stdout w2 = stdout w).
  { unfold randn in H1, H2. injection H1 as <- <-. injection H2 as <- <-. reflexivity. }
  rewrite Hout. f_equal. f_equal. f_equal.
  apply map_ext. intros i. rewrite Nat.sub_0_r. reflexivity.
Qed.

End Training.

(** C8.  On a mask of the shape of [Y], [train] draws [X] and then [Theta]
    from the random generator, applies [update] exactly [n_iter] times in
    sequence and returns the result; nothing else ends the loop.  Before
    step 0 and before every step whose index is a multiple of 100 (the
    reporting interval written in the code) it prints the pair of the
    index and the cost of the current factors, in increasing order. *)
Theorem train_applies_update_n_iter_times Y has_rating reg alpha k n w :
  shape has_rating = shape Y ->
  exists X0 Theta0 w1 w2 final (loss : nat -> R),
    randn (shape0 Y) k w = (w1, Ok X0) /\
    randn (shape1 Y) k w1 = (w2, Ok Theta0) /\
    updates Y has_rating reg alpha n (X0, Theta0) = Ok final /\
    (forall i, loss_after Y has_rating reg alpha i (X0, Theta0) = Ok (loss i)) /\
    train Y has_rating reg alpha k n w =
    (mk_world (np_random w2)
       (stdout w ++ map (fun i => (i, loss i))
                        (filter (fun i => (i mod 100 =? 0)%nat) (seq 0 n))),
     Ok final).
Proof.
  intros Hs.
  destruct (randn_twice (shape0 Y) (shape1 Y) k w) as (X0 & T0 & w1 & w2 & H1 & H2 & _).
  destruct (train_spec Y has_rating reg alpha k n w X0 T0 w1 w2 Hs H1 H2) as [Hc Ht].
  destruct (updates_conforming Y has_rating reg alpha n X0 T0 Hc) as (X' & T' & Hn & _).
  exists X0, T0, w1, w2, (X', T'),
    (fun i => value_of (loss_after Y has_rating reg alpha i (X0, T0))).
  split; [exact H1|]. split; [exact H2|]. split; [exact Hn|]. split.
  - intros i. destruct (loss_after_conforming Y has_rating reg alpha i X0 T0 Hc) as [c ->].
    reflexivity.
  - rewrite Ht, Hn. reflexivity.
Qed.

Lemma train_applies_update_n_iter_times_witness :
  exists X0 Theta0 w1 w2 final (loss : nat -> R),
    randn 5 3 (fresh_world (fun _ => 1)) = (w1, Ok X0) /\
    randn 7 3 w1 = (w2, Ok Theta0) /\
    updates Y_5x7 rated_5x7 0 (1/10) 2 (X0, Theta0) = Ok final /\
    (forall i, loss_after Y_5x7 rated_5x7 0 (1/10) i (X0, Theta0) = Ok (loss i)) /\
    train Y_5x7 rated_5x7 0 (1/10) 3 2 (fresh_world (fun _ => 1)) =
    (mk_world (np_random w2)
       ([] ++ map (fun i => (i, loss i))
                  (filter (fun i => (i mod 100 =? 0)%nat) (seq 0 2))),
     Ok final).
Proof.
  apply (train_applies_update_n_iter_times Y_5x7 rated_5x7 0 (1/10) 3 2
           (fresh_world (fun _ => 1))).
  reflexivity.
Defined.

(** C9.  On a (ni,nu) ratings array with a mask of the same shape, [train]
    returns [X] of shape (ni,k) and [Theta] of shape (nu,k) for every
    [n_factor = k] and every [n_iter]; and whenever [update] returns, the
    factors it returns have the shapes of the factors it was given. *)
Theorem train_shapes Y has_rating reg alpha k n w :
  shape has_rating = shape Y ->
  (exists w' X Theta,
     train Y has_rating reg alpha k n w = (w', Ok (X, Theta)) /\
     shape X = (shape0 Y, k) /\ shape Theta = (shape1 Y, k)) /\
  (forall X Theta, conforming X Theta Y has_rating ->
     exists X' Theta', update X Theta Y has_rating reg alpha = Ok (X', Theta')) /\
  (forall X Theta X' Theta',
     update X Theta Y has_rating reg alpha = Ok (X', Theta') ->
     shape X' = shape X /\ shape Theta' = shape Theta).
Proof.
  intros Hs. split; [|split].
  - destruct (randn_twice (shape0 Y) (shape1 Y) k w)
      as (X0 & T0 & w1 & w2 & H1 & H2 & HX0 & HT0 & _).
    destruct (train_spec Y has_rating reg alpha k n w X0 T0 w1 w2 Hs H1 H2) as [Hc Ht].
    destruct (updates_conforming Y has_rating reg alpha n X0 T0 Hc)
      as (X' & T' & Hn & HX & HT).
    eexists _, X', T'. rewrite Ht, Hn. split; [reflexivity|]. split; congruence.
  - intros X Theta Hc.
    destruct (update_conforming X Theta Y has_rating reg alpha Hc)
      as (_ & _ & X' & T' & _ & _ & Hu & _).
    exists X', T'. exact Hu.
  - intros X Theta X' Theta' Hu.
    destruct (update_shape _ _ _ _ _ _ _ _ Hu) as [[HX0 HX1] [HT0 HT1]].
    unfold shape. split; congruence.
Qed.

(** The shape contract of the specification: (5,7) ratings, 3 factors. *)
Lemma train_shapes_witness :
  exists w' X Theta,
    train Y_5x7 rated_5x7 0 (1/10) 3 2 (fresh_world (fun _ => 1)) = (w', Ok (X, Theta)) /\
    shape X = (5%nat, 3%nat) /\ shape Theta = (7%nat, 3%nat).
Proof.
  apply (train_shapes Y_5x7 rated_5x7 0 (1/10) 3 2 (fresh_world (fun _ => 1))).
  reflexivity.
Defined.

(** C10.  With [n_iter = 0], whatever the shapes, [train] runs no update,
    prints nothing and returns the two arrays it has just drawn.  On a
    mask of the shape of [Y], the pairs it prints are exactly the pairs
    (i, c) with [i < n_iter], [i] a multiple of 100 (0 included) and [c]
    the cost of the factors reached after [i] updates, i.e. just before
    the update of iteration [i]; no pair carries the index [n_iter], so the
    cost of the returned factors is not printed. *)
Theorem train_reports_before_update Y has_rating reg alpha k w :
  exists X0 Theta0 w1 w2,
    randn (shape0 Y) k w = (w1, Ok X0) /\
    randn (shape1 Y) k w1 = (w2, Ok Theta0) /\
    train Y has_rating reg alpha k 0 w = (w2, Ok (X0, Theta0)) /\
    stdout w2 = stdout w /\
    (shape has_rating = shape Y ->
     forall n, exists w' final printed,
       train Y has_rating reg alpha k n w = (w', Ok final) /\
       updates Y has_rating reg alpha n (X0, Theta0) = Ok final /\
       stdout w' = stdout w ++ printed /\
       (forall i c, In (i, c) printed <->
          (i < n)%nat /\ (i mod 100 = 0)%nat /\
          exists X Theta,
            updates Y has_rating reg alpha i (X0, Theta0) = Ok (X, Theta) /\
            compute_cost X Theta Y has_rating reg = Ok c) /\
       (forall c, ~ In (n, c) printed)).
Proof.
  destruct (randn_twice (shape0 Y) (shape1 Y) k w)
    as (X0 & T0 & w1 & w2 & H1 & H2 & _ & _ & Hout & _).
  exists X0, T0, w1, w2.
  split; [exact H1|]. split; [exact H2|].
  split.
  { unfold train. unfold bind_io at 1. rewrite H1. unfold bind_io at 1. rewrite H2.
    reflexivity. }
  split; [exact Hout|].
  intros Hs n.
  destruct (train_spec Y has_rating reg alpha k n w X0 T0 w1 w2 Hs H1 H2) as [Hc Ht].
  destruct (updates_conforming Y has_rating reg alpha n X0 T0 Hc) as (X' & T' & Hn & _).
  set (printed := map _ _) in Ht.
  assert (Hin : forall i c, In (i, c) printed <->
            (i < n)%nat /\ (i mod 100 = 0)%nat /\
            exists X Theta,
              updates Y has_rating reg alpha i (X0, T0) = Ok (X, Theta) /\
              compute_cost X Theta Y has_rating reg = Ok c).
  { intros i c. unfold printed. rewrite in_map_iff. split.
    - intros (i' & Heq & Hi'). injection Heq as -> <-.
      apply filter_In in Hi' as [Hseq Hrep]. apply in_seq in Hseq.
      unfold reported in Hrep. apply Nat.eqb_eq in Hrep.
      split; [lia|]. split; [exact Hrep|].
      destruct (updates_conforming Y has_rating reg alpha i X0 T0 Hc)
        as (Xi & Ti & Hi & HXi & HTi).
      exists Xi, Ti. split; [exact Hi|].
      unfold loss_after. rewrite Hi. cbn [bind_result fst snd].
      rewrite (compute_cost_conforming _ _ _ _ reg
                 (conforming_same_shape _ _ _ _ _ _ HXi HTi Hc)).
      reflexivity.
    - intros (Hlt & Hmod & Xi & Ti & Hi & Hcost).
      exists i. split.
      + unfold loss_after. rewrite Hi. cbn [bind_result fst snd]. rewrite Hcost.
        reflexivity.
      + apply filter_In. split; [apply in_seq; lia|].
        unfold reported. apply Nat.eqb_eq. exact Hmod. }
  exists (mk_world (np_random w2) (stdout w ++ printed)), (X', T'), printed.
  split; [rewrite Ht, Hn; reflexivity|]. split; [exact Hn|].
  split; [reflexivity|]. split; [exact Hin|].
  intros c Habs. apply Hin in Habs. lia.
Qed.

Lemma train_reports_before_update_witness :
  exists w' final printed,
    train Y_5x7 rated_5x7 0 (1/10) 3 2 (fresh_world (fun _ => 1)) = (w', Ok final) /\
    stdout w' = [] ++ printed /\
    forall c, ~ In (2%nat, c) printed.
Proof.
  destruct (train_reports_before_update Y_5x7 rated_5x7 0 (1/10) 3 (fresh_world (fun _ => 1)))
    as (X0 & T0 & w1 & w2 & _ & _ & _ & _ & H).
  destruct (H eq_refl 2%nat) as (w' & final & printed & Ht & _ & Hout & _ & Hlast).
  exists w', final, printed. auto.
Defined.

(** ** Shape errors *)

Lemma masked_error_spec X Theta Y has_rating :
  if cost_shapes_ok X Theta Y has_rating
  then exists E, masked_error X Theta Y has_rating = Ok E /\
         shape0 E = error_rows X Y has_rating /\
         shape1 E = error_cols Theta Y has_rating
  else masked_error X Theta Y has_rating = ValueError.
Proof.
  unfold cost_shapes_ok, masked_error, matmul. cbn [transpose shape0 shape1 item].
  destruct (shape1 X =? shape1 Theta)%nat; cbn [andb bind_result]; [|reflexivity].
  set (P := mk_array _ _ _).
  pose proof (broadcast2_spec Rminus P Y) as HD. unfold subtract.
  cbn [P shape0 shape1] in HD.
  destruct (compatible (shape0 X) (shape0 Y)); cbn [andb] in *; [|rewrite HD; reflexivity].
  destruct (compatible (shape0 Theta) (shape1 Y)); cbn [andb] in *; [|rewrite HD; reflexivity].
  destruct HD as (D & -> & HD0 & HD1). cbn [bind_result].
  pose proof (broadcast2_spec (fun x b => x * float_of_bool b) D has_rating) as HE.
  unfold multiply_mask. rewrite HD0, HD1 in HE.
  destruct (compatible (stretched (shape0 X) (shape0 Y)) (shape0 has_rating));
    cbn [andb] in *; [|exact HE].
  destruct (compatible (stretched (shape0 Theta) (shape1 Y)) (shape1 has_rating));
    cbn [andb] in *; [|exact HE].
  destruct HE as (E & -> & HE0 & HE1). exists E. auto.
Qed.

(** [compute_cost] raises exactly when the masked error cannot be formed:
    the product of the error with its own transpose and the two norms
    never raise. *)
Lemma compute_cost_raises_iff X Theta Y has_rating reg :
  compute_cost X Theta Y has_rating reg = ValueError <->
  cost_shapes_ok X Theta Y has_rating = false.
Proof.
  pose proof (masked_error_spec X Theta Y has_rating) as H.
  unfold compute_cost.
  destruct (cost_shapes_ok X Theta Y has_rating).
  - destruct H as (E & -> & _). cbn [bind_result].
    unfold matmul. cbn [transpose shape0 shape1]. rewrite Nat.eqb_refl. cbn [bind_result].
    split; discriminate.
  - rewrite H. cbn [bind_result]. split; reflexivity.
Qed.

(** [update] raises exactly when the masked error cannot be formed or does
    not have the shape (ni,nu): then one of the two matrix products with
    [Theta] and [X] is rejected.  Otherwise every later operation works on
    arrays of equal shape. *)
Lemma update_raises_iff X Theta Y has_rating reg alpha :
  update X Theta Y has_rating reg alpha = ValueError <->
  update_shapes_ok X Theta Y has_rating = false.
Proof.
  pose proof (masked_error_spec X Theta Y has_rating) as H.
  unfold update_shapes_ok, update, dX, dTheta.
  destruct (cost_shapes_ok X Theta Y has_rating) eqn:Hok; cbn [andb].
  2:{ rewrite H. cbn [bind_result]. split; reflexivity. }
  destruct H as (E & -> & HE0 & HE1). cbn [bind_result].
  rewrite <- HE0, <- HE1.
  assert (Hk : shape1 X = shape1 Theta).
  { unfold cost_shapes_ok in Hok. rewrite !andb_true_iff in Hok.
    apply Nat.eqb_eq. tauto. }
  unfold matmul. cbn [transpose shape0 shape1 item].
  destruct (Nat.eqb_spec (shape1 E) (shape0 Theta)) as [Hb|Hb]; cbn [bind_result].
  2:{ rewrite andb_false_r. split; reflexivity. }
  destruct (Nat.eqb_spec (shape0 E) (shape0 X)) as [Ha|Ha]; cbn [andb].
  2:{ destruct (add _ _); cbn [bind_result]; split; reflexivity. }
  set (M := mk_array (shape0 E) (shape1 Theta) _).
  destruct (broadcast2_same_shape Rplus M (scale reg X)) as (gX & HgX & HgX0 & HgX1 & _);
    [simpl; congruence | simpl; congruence |].
  unfold add at 1. rewrite HgX. cbn [bind_result].
  set (M2 := mk_array (shape1 E) (shape1 X) _).
  destruct (broadcast2_same_shape Rplus M2 (scale reg Theta)) as (gT & HgT & HgT0 & HgT1 & _);
    [simpl; congruence | simpl; congruence |].
  unfold add. rewrite HgT. cbn [bind_result].
  cbn [M M2 shape0 shape1] in HgX0, HgX1, HgT0, HgT1.
  destruct (isub_same_shape X (scale alpha gX)) as (X' & -> & _);
    [simpl; congruence | simpl; congruence |].
  destruct (isub_same_shape Theta (scale alpha gT)) as (T' & -> & _);
    [simpl; congruence | simpl; congruence |].
  cbn [bind_result]. split; discriminate.
Qed.

Lemma conforming_shapes_ok X Theta Y has_rating :
  conforming X Theta Y has_rating -> update_shapes_ok X Theta Y has_rating = true.
Proof.
  intros (Hk & HY0 & HY1 & HR0 & HR1).
  unfold update_shapes_ok, cost_shapes_ok, error_rows, error_cols, compatible, stretched.
  rewrite Hk, HY0, HY1, HR0, HR1, !Nat.eqb_refl. cbn [orb andb].
  destruct (shape0 X =? 1)%nat eqn:Ha, (shape0 Theta =? 1)%nat eqn:Hb;
    rewrite ?Ha, ?Hb, ?Nat.eqb_refl; reflexivity.
Qed.

(** C4 as stated fails: [Y] of shape (1,1) against a mask and a prediction
    of shape (2,1) is a shape mismatch, yet NumPy broadcasts it and neither
    [compute_cost] nor [update] raises. *)
Lemma shape_mismatch_not_rejected :
  ~ conforming X_two Theta_one Y_one rated_two /\
  shape Y_one <> shape rated_two /\
  compute_cost X_two Theta_one Y_one rated_two 0 = Ok 2 /\
  exists s, update X_two Theta_one Y_one rated_two 0 (1/2) = Ok s.
Proof.
  split; [|split; [|split]].
  - unfold conforming. simpl. intros (_ & H & _). discriminate.
  - unfold shape. simpl. discriminate.
  - cbn. f_equal. lra.
  - eexists. reflexivity.
Qed.

(** Nor is a mismatch detected before any work is done: with [Y] of shape
    (1,1) and a mask of shape (2,1), [train] draws both factors, prints
    the cost of iteration 0 and only then raises, from the product
    [error.T @ X] inside [update]. *)
Example train_raises_after_printing :
  exists c,
    train Y_one rated_two 0 (1/2) 1 1 (fresh_world (fun _ => 1)) =
    (mk_world (mk_rng (fun _ => 1) 2) [(0%nat, c)], ValueError).
Proof. eexists. reflexivity. Qed.

(** [train_int] on a non-negative [n_factor] is [train]. *)
Lemma train_int_nonneg Y has_rating reg alpha k n :
  (0 <= k)%Z ->
  train_int Y has_rating reg alpha k n =
  train Y has_rating reg alpha (Z.to_nat k) (Z.to_nat n).
Proof.
  intros Hk. unfold train_int, train, randn_int.
  destruct (Z.ltb_spec k 0); [lia | reflexivity].
Qed.

(** A negative [n_factor] is rejected by the first [randn], before
    anything is drawn or printed. *)
Lemma train_int_negative Y has_rating reg alpha k n w :
  (k < 0)%Z -> train_int Y has_rating reg alpha k n w = (w, ValueError).
Proof.
  intros Hk. unfold train_int, randn_int, bind_io.
  destruct (Z.ltb_spec k 0); [reflexivity | lia].
Qed.

(** C4, amended.  For two-dimensional arrays whose factors [X] and [Theta]
    are float64 arrays: the functions do not validate shapes; an
    exception is NumPy's [ValueError] from the first operation whose
    operands do not fit.  [compute_cost] raises exactly when
    [cost_shapes_ok] is false, [update] exactly when [update_shapes_ok] is
    false.  Hence: calls with conforming shapes never raise, calls in
    which [X] and [Theta] have different numbers of columns always raise,
    and [train] on a mask of the shape of [Y] never raises for
    [n_factor >= 0], while a negative [n_factor] always makes it raise. *)
Theorem shape_errors X Theta Y has_rating reg alpha :
  (compute_cost X Theta Y has_rating reg = ValueError <->
   cost_shapes_ok X Theta Y has_rating = false) /\
  (update X Theta Y has_rating reg alpha = ValueError <->
   update_shapes_ok X Theta Y has_rating = false) /\
  (conforming X Theta Y has_rating ->
   (exists c, compute_cost X Theta Y has_rating reg = Ok c) /\
   (exists s, update X Theta Y has_rating reg alpha = Ok s)) /\
  (shape1 X <> shape1 Theta ->
   compute_cost X Theta Y has_rating reg = ValueError /\
   update X Theta Y has_rating reg alpha = ValueError) /\
  (shape has_rating = shape Y ->
   forall k n w, exists w' s, train Y has_rating reg alpha k n w = (w', Ok s)) /\
  (shape has_rating = shape Y ->
   forall k n w, (0 <= k)%Z ->
     exists w' s, train_int Y has_rating reg alpha k n w = (w', Ok s)) /\
  (forall k n w, (k < 0)%Z ->
     train_int Y has_rating reg alpha k n w = (w, ValueError)).
Proof.
  assert (Htrain : shape has_rating = shape Y ->
            forall k n w, exists w' s, train Y has_rating reg alpha k n w = (w', Ok s)).
  { intros Hs k n w.
    destruct (randn_twice (shape0 Y) (shape1 Y) k w) as (X0 & T0 & w1 & w2 & H1 & H2 & _).
    destruct (train_spec Y has_rating reg alpha k n w X0 T0 w1 w2 Hs H1 H2) as [Hc Ht].
    destruct (updates_conforming Y has_rating reg alpha n X0 T0 Hc) as (X' & T' & Hn & _).
    eexists _, _. rewrite Ht, Hn. reflexivity. }
  split; [apply compute_cost_raises_iff|].
  split; [apply update_raises_iff|].
  split; [|split; [|split; [|split]]].
  - intros Hc. split.
    + eexists. apply compute_cost_conforming, Hc.
    + destruct (update_conforming X Theta Y has_rating reg alpha Hc)
        as (_ & _ & X' & T' & _ & _ & Hu & _).
      eexists. exact Hu.
  - intros Hk.
    assert (Hno : cost_shapes_ok X Theta Y has_rating = false).
    { unfold cost_shapes_ok. apply Nat.eqb_neq in Hk. rewrite Hk. reflexivity. }
    split.
    + apply compute_cost_raises_iff, Hno.
    + apply update_raises_iff. unfold update_shapes_ok. rewrite Hno. reflexivity.
  - exact Htrain.
  - intros Hs k n w Hk. rewrite (train_int_nonneg _ _ _ _ _ n Hk). apply Htrain, Hs.
  - intros k n w Hk. apply train_int_negative, Hk.
Qed.

Lemma shape_errors_witness :
  (exists c, compute_cost X_two Theta_one Y_two rated_two 0 = Ok c) /\
  (exists s, update X_two Theta_one Y_two rated_two 0 (1/2) = Ok s).
Proof.
  apply (shape_errors X_two Theta_one Y_two rated_two 0 (1/2)).
  conforming_by_computation.
Defined.

(** ** The gradients and the two costs *)

(** A function that is a quadratic polynomial around [x] has the
    coefficient of its linear term as derivative at [x]. *)
Lemma derivable_pt_lim_quadratic (f : R -> R) (x g A : R) :
  (forall v, f v = f x + (v - x) * g + (v - x) * (v - x) * A) ->
  derivable_pt_lim f x g.
Proof.
  intros Hf eps Heps.
  assert (Hd : 0 < eps / (Rabs A + 1)).
  { apply Rdiv_lt_0_compat; [exact Heps | pose proof (Rabs_pos A); lra]. }
  exists (mkposreal _ Hd). intros h Hh Hlt. cbn [pos] in Hlt.
  rewrite (Hf (x + h)).
  replace ((f x + (x + h - x) * g + (x + h - x) * (x + h - x) * A - f x) / h - g)
    with (h * A) by (field; exact Hh).
  rewrite Rabs_mult.
  pose proof (Rabs_pos A) as HA. pose proof (Rabs_pos h) as Hh0.
  assert (Hbound : Rabs h * (Rabs A + 1) < eps / (Rabs A + 1) * (Rabs A + 1))
    by (apply Rmult_lt_compat_r; lra).
  replace (eps / (Rabs A + 1) * (Rabs A + 1)) with eps in Hbound by (field; lra).
  nra.
Qed.

Lemma float_of_bool_idem (b : bool) :
  float_of_bool b * float_of_bool b = float_of_bool b.
Proof. destruct b; simpl; ring. Qed.

Lemma residual_masked X Theta Y has_rating i j :
  residual X Theta Y has_rating i j * float_of_bool (item has_rating i j) =
  residual X Theta Y has_rating i j.
Proof. unfold residual. rewrite Rmult_assoc, float_of_bool_idem. reflexivity. Qed.

(** Changing one entry of [X] changes the residuals of its row only, and
    linearly. *)
Lemma residual_set_item_X X Theta Y has_rating i l v i' j :
  (l < shape1 X)%nat ->
  residual (set_item X i l v) Theta Y has_rating i' j =
  residual X Theta Y has_rating i' j
  + (if (i' =? i)%nat
     then (v - item X i l) * (item Theta j l * float_of_bool (item has_rating i j))
     else 0).
Proof.
  intros Hl. unfold residual. cbn [set_item shape1 item].
  rewrite (sum_n_ext _ _ (fun l' => item X i' l' * item Theta j l'
             + (if (l' =? l)%nat
                then (if (i' =? i)%nat then (v - item X i l) * item Theta j l else 0)
                else 0))).
  - rewrite sum_n_plus, sum_n_pick by exact Hl.
    destruct (Nat.eqb_spec i' i) as [->|]; ring.
  - intros l' _.
    destruct (Nat.eqb_spec i' i) as [->|], (Nat.eqb_spec l' l) as [->|]; cbn [andb]; ring.
Qed.

Lemma residual_set_item_Theta X Theta Y has_rating j l v i j' :
  (l < shape1 X)%nat ->
  residual X (set_item Theta j l v) Y has_rating i j' =
  residual X Theta Y has_rating i j'
  + (if (j' =? j)%nat
     then (v - item Theta j l) * (item X i l * float_of_bool (item has_rating i j))
     else 0).
Proof.
  intros Hl. unfold residual. cbn [set_item shape1 item].
  rewrite (sum_n_ext _ _ (fun l' => item X i l' * item Theta j' l'
             + (if (l' =? l)%nat
                then (if (j' =? j)%nat then (v - item Theta j l) * item X i l else 0)
                else 0))).
  - rewrite sum_n_plus, sum_n_pick by exact Hl.
    destruct (Nat.eqb_spec j' j) as [->|]; ring.
  - intros l' _.
    destruct (Nat.eqb_spec j' j) as [->|], (Nat.eqb_spec l' l) as [->|]; cbn [andb]; ring.
Qed.

Lemma frobenius2_set_item M i l v :
  (i < shape0 M)%nat -> (l < shape1 M)%nat ->
  frobenius2 (set_item M i l v) =
  frobenius2 M + (v - item M i l) * (2 * item M i l) + (v - item M i l) * (v - item M i l).
Proof.
  intros Hi Hl. unfold frobenius2. cbn [set_item shape0 shape1 item].
  rewrite (sum_n_ext _ _ (fun i' =>
             sum_n (shape1 M) (fun l' => item M i' l' * item M i' l')
             + (if (i' =? i)%nat
                then (v - item M i l) * (2 * item M i l)
                     + (v - item M i l) * (v - item M i l)
                else 0))).
  - rewrite sum_n_plus, sum_n_pick by exact Hi. ring.
  - intros i' _.
    rewrite (sum_n_ext _ _ (fun l' => item M i' l' * item M i' l'
               + (if (l' =? l)%nat
                  then (if (i' =? i)%nat
                        then (v - item M i l) * (2 * item M i l)
                             + (v - item M i l) * (v - item M i l)
                        else 0)
                  else 0))).
    + rewrite sum_n_plus, sum_n_pick by exact Hl. reflexivity.
    + intros l' _.
      destruct (Nat.eqb_spec i' i) as [->|], (Nat.eqb_spec l' l) as [->|]; cbn [andb]; ring.
Qed.

(** [J] as a function of one entry of [X] is a quadratic polynomial. *)
Lemma J_set_item_X X Theta Y has_rating reg i l v :
  (i < shape0 X)%nat -> (l < shape1 X)%nat ->
  J (set_item X i l v) Theta Y has_rating reg =
  J X Theta Y has_rating reg
  + (v - item X i l)
    * (sum_n (shape0 Theta) (fun j => residual X Theta Y has_rating i j * item Theta j l)
       + reg * item X i l)
  + (v - item X i l) * (v - item X i l)
    * (1 / 2 * sum_n (shape0 Theta) (fun j =>
                 item Theta j l * float_of_bool (item has_rating i j)
                 * (item Theta j l * float_of_bool (item has_rating i j)))
       + reg / 2).
Proof.
  intros Hi Hl. unfold J.
  rewrite frobenius2_set_item by assumption. cbn [set_item shape0].
  rewrite (sum_n_ext (shape0 X) _ (fun i' => sum_n (shape0 Theta) (fun j =>
      (residual X Theta Y has_rating i' j
       + (if (i' =? i)%nat
          then (v - item X i l) * (item Theta j l * float_of_bool (item has_rating i j))
          else 0))
      * (residual X Theta Y has_rating i' j
         + (if (i' =? i)%nat
            then (v - item X i l) * (item Theta j l * float_of_bool (item has_rating i j))
            else 0))))).
  2:{ intros i' _. apply sum_n_ext; intros j _.
      rewrite residual_set_item_X by exact Hl. reflexivity. }
  rewrite (sum_n_perturbed_row (shape0 X) (shape0 Theta) i
             (residual X Theta Y has_rating)
             (fun j => item Theta j l * float_of_bool (item has_rating i j))
             (v - item X i l) Hi).
  rewrite (sum_n_ext (shape0 Theta)
             (fun j => residual X Theta Y has_rating i j
                       * (item Theta j l * float_of_bool (item has_rating i j)))
             (fun j => residual X Theta Y has_rating i j * item Theta j l)).
  2:{ intros j _. rewrite <- (residual_masked X Theta Y has_rating i j) at 2. ring. }
  field.
Qed.

(** And likewise as a function of one entry of [Theta]. *)
Lemma J_set_item_Theta X Theta Y has_rating reg j l v :
  shape1 X = shape1 Theta ->
  (j < shape0 Theta)%nat -> (l < shape1 Theta)%nat ->
  J X (set_item Theta j l v) Y has_rating reg =
  J X Theta Y has_rating reg
  + (v - item Theta j l)
    * (sum_n (shape0 X) (fun i => residual X Theta Y has_rating i j * item X i l)
       + reg * item Theta j l)
  + (v - item Theta j l) * (v - item Theta j l)
    * (1 / 2 * sum_n (shape0 X) (fun i =>
                 item X i l * float_of_bool (item has_rating i j)
                 * (item X i l * float_of_bool (item has_rating i j)))
       + reg / 2).
Proof.
  intros Hk Hj Hl. unfold J.
  rewrite frobenius2_set_item by assumption. cbn [set_item shape0].
  rewrite (sum_n_ext (shape0 X) _ (fun i => sum_n (shape0 Theta) (fun j' =>
      (residual X Theta Y has_rating i j'
       + (if (j' =? j)%nat
          then (v - item Theta j l) * (item X i l * float_of_bool (item has_rating i j))
          else 0))
      * (residual X Theta Y has_rating i j'
         + (if (j' =? j)%nat
            then (v - item Theta j l) * (item X i l * float_of_bool (item has_rating i j))
            else 0))))).
  2:{ intros i _. apply sum_n_ext; intros j' _.
      rewrite residual_set_item_Theta by (rewrite Hk; exact Hl). reflexivity. }
  rewrite (sum_n_perturbed_column (shape0 X) (shape0 Theta) j
             (residual X Theta Y has_rating)
             (fun i => item X i l * float_of_bool (item has_rating i j))
             (v - item Theta j l) Hj).
  rewrite (sum_n_ext (shape0 X)
             (fun i => residual X Theta Y has_rating i j
                       * (item X i l * float_of_bool (item has_rating i j)))
             (fun i => residual X Theta Y has_rating i j * item X i l)).
  2:{ intros i _. rewrite <- (residual_masked X Theta Y has_rating i j) at 2. ring. }
  field.
Qed.

(** The two gradient lines of [update] are the exact partial derivatives
    of the documented cost [J]: entry (i,l) of [dX] is the derivative of
    [J] in [X[i,l]], entry (j,l) of [dTheta] its derivative in
    [Theta[j,l]]. *)
Theorem gradients_are_partial_derivatives_of_J X Theta Y has_rating reg :
  conforming X Theta Y has_rating ->
  exists gX gTheta,
    dX X Theta Y has_rating reg = Ok gX /\
    dTheta X Theta Y has_rating reg = Ok gTheta /\
    (forall i l, (i < shape0 X)%nat -> (l < shape1 X)%nat ->
       derivable_pt_lim (fun v => J (set_item X i l v) Theta Y has_rating reg)
                        (item X i l) (item gX i l)) /\
    (forall j l, (j < shape0 Theta)%nat -> (l < shape1 Theta)%nat ->
       derivable_pt_lim (fun v => J X (set_item Theta j l v) Y has_rating reg)
                        (item Theta j l) (item gTheta j l)).
Proof.
  intros Hc.
  destruct (dX_conforming X Theta Y has_rating reg Hc) as (gX & HgX & _ & _ & HgXi).
  destruct (dTheta_conforming X Theta Y has_rating reg Hc) as (gT & HgT & _ & _ & HgTi).
  exists gX, gT. split; [exact HgX|]. split; [exact HgT|]. split.
  - intros i l Hi Hl. rewrite (HgXi i l Hi Hl).
    apply (derivable_pt_lim_quadratic _ _ _
             (1 / 2 * sum_n (shape0 Theta) (fun j =>
                        item Theta j l * float_of_bool (item has_rating i j)
                        * (item Theta j l * float_of_bool (item has_rating i j)))
              + reg / 2)).
    intros v. cbv beta.
    rewrite (J_set_item_X X Theta Y has_rating reg i l v Hi Hl).
    rewrite (J_set_item_X X Theta Y has_rating reg i l (item X i l) Hi Hl).
    field.
  - intros j l Hj Hl. rewrite (HgTi j l Hj Hl).
    destruct Hc as (Hk & _).
    apply (derivable_pt_lim_quadratic _ _ _
             (1 / 2 * sum_n (shape0 X) (fun i =>
                        item X i l * float_of_bool (item has_rating i j)
                        * (item X i l * float_of_bool (item has_rating i j)))
              + reg / 2)).
    intros v. cbv beta.
    rewrite (J_set_item_Theta X Theta Y has_rating reg j l v Hk Hj Hl).
    rewrite (J_set_item_Theta X Theta Y has_rating reg j l (item Theta j l) Hk Hj Hl).
    field.
Qed.

Lemma compute_cost_along_X_two (v : R) :
  value_of (compute_cost (set_item X_two 0 0 v) Theta_one Y_two rated_two 0) =
  (v - 3) * (v - 3) / 2.
Proof.
  rewrite compute_cost_conforming by conforming_by_computation.
  unfold column_sum_squares, frobenius2, residual. simpl. field.
Qed.

(** C3 (the code departs from the claim).  The claim is that [dX] and
    [dTheta] are the partial derivatives of the value [compute_cost]
    returns.  They are the partial derivatives of the documented [J]
    ([gradients_are_partial_derivatives_of_J]), but [compute_cost] does not
    return [J]: on two items with residual -1 each and one user, the
    derivative of the returned cost in [X[0,0]] is -2 while [dX[0,0]] is
    -1, so [dX[0,0]] is not that derivative. *)
Theorem dX_is_not_derivative_of_compute_cost :
  conforming X_two Theta_one Y_two rated_two /\
  derivable_pt_lim
    (fun v => value_of (compute_cost (set_item X_two 0 0 v) Theta_one Y_two rated_two 0))
    (item X_two 0 0) (-2) /\
  exists gX,
    dX X_two Theta_one Y_two rated_two 0 = Ok gX /\
    item gX 0%nat 0%nat = -1 /\
    ~ derivable_pt_lim
        (fun v => value_of (compute_cost (set_item X_two 0 0 v) Theta_one Y_two rated_two 0))
        (item X_two 0 0) (item gX 0%nat 0%nat).
Proof.
  assert (Hd : derivable_pt_lim
    (fun v => value_of (compute_cost (set_item X_two 0 0 v) Theta_one Y_two rated_two 0))
    (item X_two 0 0) (-2)).
  { apply (derivable_pt_lim_quadratic _ _ _ (1 / 2)). intros v. cbv beta.
    rewrite !compute_cost_along_X_two. simpl. field. }
  split; [conforming_by_computation|]. split; [exact Hd|].
  eexists. split; [reflexivity|].
  split; [simpl; lra|].
  intros Habs. pose proof (uniqueness_limite _ _ _ _ Hd Habs) as Heq.
  simpl in Heq. lra.
Qed.

(** ** Binary64: where the program departs from exact arithmetic *)

Ltac conforming_f64_by_computation :=
  unfold conforming_f64; simpl; repeat split; reflexivity.

Lemma Ok_inj {A : Type} (a b : A) : Ok a = Ok b -> a = b.
Proof.
  intros H.
  exact (f_equal (fun r => match r with Ok x => x | ValueError => a end) H).
Qed.

(** C6 as stated fails.  One item, one user, [X = Theta = [[2^600]]],
    rating 0, [reg = 0]: the prediction overflows to infinity and the
    penalty [0.0 * inf] is NaN, so [compute_cost] returns NaN, which is not
    [>= 0]. *)
Lemma compute_cost_f64_not_nonneg :
  conforming_f64 X_huge Theta_huge Y_zero_f64 rated_one /\
  PrimFloat.leb 0 0 = true /\
  compute_cost_f64 X_huge Theta_huge Y_zero_f64 rated_one 0 = Ok nan /\
  ~ (exists c, compute_cost_f64 X_huge Theta_huge Y_zero_f64 rated_one 0 = Ok c /\
               PrimFloat.leb 0 c = true).
Proof.
  assert (Hv : compute_cost_f64 X_huge Theta_huge Y_zero_f64 rated_one 0 = Ok nan)
    by (vm_compute; reflexivity).
  split; [conforming_f64_by_computation|]. split; [reflexivity|]. split; [exact Hv|].
  intros (c & Hc & Hle). rewrite Hv in Hc. apply Ok_inj in Hc. subst c.
  vm_compute in Hle. discriminate.
Qed.

(** Rounding alone can make the returned cost negative, because
    [np.sum(error @ error.T)] adds products of different residuals: with
    residuals 1.3774599964441199 and -1.3774599964240752 for one user the
    binary64 result is about -1.1e-16. *)
Example compute_cost_f64_negative :
  exists c,
    compute_cost_f64 X_cancel Theta_one_f64 Y_zeros_f64 rated_two 0 = Ok c /\
    PrimFloat.ltb c 0 = true.
Proof. eexists. split; vm_compute; reflexivity. Qed.

(** C5 as stated fails.  The code masks by multiplying, and NaN times
    [False] is NaN: with the unrated second item holding NaN in [Y] and 0
    in [Y'], the two arrays agree on every rated entry, yet the cost is NaN
    on [Y] and 0.5 on [Y']. *)
Lemma nan_placeholder_is_not_masked :
  conforming_f64 X_ones_f64 Theta_one_f64 Y_nan_f64 rated_first /\
  shape Y_first_f64 = shape Y_nan_f64 /\
  (forall i j, (i < shape0 Y_nan_f64)%nat -> (j < shape1 Y_nan_f64)%nat ->
     item rated_first i j = true -> item Y_first_f64 i j = item Y_nan_f64 i j) /\
  compute_cost_f64 X_ones_f64 Theta_one_f64 Y_nan_f64 rated_first 0 = Ok nan /\
  compute_cost_f64 X_ones_f64 Theta_one_f64 Y_first_f64 rated_first 0 = Ok 0.5%float /\
  compute_cost_f64 X_ones_f64 Theta_one_f64 Y_first_f64 rated_first 0 <>
  compute_cost_f64 X_ones_f64 Theta_one_f64 Y_nan_f64 rated_first 0.
Proof.
  assert (Hn : compute_cost_f64 X_ones_f64 Theta_one_f64 Y_nan_f64 rated_first 0 = Ok nan)
    by (vm_compute; reflexivity).
  assert (Hf : compute_cost_f64 X_ones_f64 Theta_one_f64 Y_first_f64 rated_first 0
               = Ok 0.5%float) by (vm_compute; reflexivity).
  split; [conforming_f64_by_computation|]. split; [reflexivity|]. split; [|split; [|split]].
  - intros i j Hi Hj. simpl in Hi, Hj.
    destruct i as [|[|i]]; destruct j as [|j]; simpl; intros Hr;
      try lia; try reflexivity; discriminate.
  - exact Hn.
  - exact Hf.
  - rewrite Hn, Hf. intros H. apply Ok_inj in H.
    apply (f_equal PrimFloat.is_nan) in H. vm_compute in H. discriminate.
Qed.

(** The same placeholder reaches the factors: [update] returns NaN in the
    row of the unrated item and in [Theta]. *)
Example update_f64_nan_placeholder :
  exists X' Theta',
    update_f64 X_ones_f64 Theta_one_f64 Y_nan_f64 rated_first 1 0.5 = Ok (X', Theta') /\
    item X' 0%nat 0%nat = 1%float /\
    PrimFloat.is_nan (item X' 1%nat 0%nat) = true /\
    PrimFloat.is_nan (item Theta' 0%nat 0%nat) = true.
Proof. eexists _, _. split; [reflexivity|]. vm_compute. auto. Qed.

(** Exact zero in binary64 (C2).  With [reg = 1], nothing rated and
    factors 2^-600, whose squares underflow, the cost is exactly 0.0
    although neither [reg] nor the factors are zero. *)
Example compute_cost_f64_zero_by_underflow :
  compute_cost_f64 X_tiny Theta_tiny Y_zero_f64 rated_none 1 = Ok 0%float /\
  PrimFloat.eqb (item X_tiny 0%nat 0%nat) 0 = false.
Proof. split; vm_compute; reflexivity. Qed.

(** And with [reg = 0] and the rated entry predicted exactly
    (2^600 * 2^-600 = 1), the cost is NaN, not 0: the norm of [X]
    overflows and [0.0 * inf] is NaN. *)
Example compute_cost_f64_nan_at_perfect_fit :
  (exists P, matmul_f64 X_huge (transpose Theta_tiny) = Ok P /\
             item P 0%nat 0%nat = item Y_one_f64 0%nat 0%nat) /\
  compute_cost_f64 X_huge Theta_tiny Y_one_f64 rated_one 0 = Ok nan.
Proof. split; [eexists; split; [reflexivity|]|]; vm_compute; reflexivity. Qed.

(** * Further properties of the code *)

(** ** What compute_cost returns *)









(** ** Properties of the update step *)

(** X5.  The gradient lines of [update] are the partial derivatives of
    [J] (theorem above, in the section on the gradients); here on two
    items, one user and [reg = 3]. *)
Lemma gradients_are_partial_derivatives_of_J_witness :
  exists gX gTheta,
    dX X_two Theta_one Y_two rated_two 3 = Ok gX /\
    dTheta X_two Theta_one Y_two rated_two 3 = Ok gTheta /\
    (forall i l, (i < shape0 X_two)%nat -> (l < shape1 X_two)%nat ->
       derivable_pt_lim (fun v => J (set_item X_two i l v) Theta_one Y_two rated_two 3)
                        (item X_two i l) (item gX i l)) /\
    (forall j l, (j < shape0 Theta_one)%nat -> (l < shape1 Theta_one)%nat ->
       derivable_pt_lim (fun v => J X_two (set_item Theta_one j l v) Y_two rated_two 3)
                        (item Theta_one j l) (item gTheta j l)).
Proof.
  apply gradients_are_partial_derivatives_of_J. conforming_by_computation.
Defined.

Lemma conforming_transpose X Theta Y has_rating :
  conforming X Theta Y has_rating ->
  conforming Theta X (transpose Y) (transpose has_rating).
Proof.
  intros (Hk & HY0 & HY1 & HR0 & HR1). unfold conforming. cbn [transpose shape0 shape1].
  auto.
Qed.

Lemma residual_transpose X Theta Y has_rating i j :
  shape1 X = shape1 Theta ->
  residual Theta X (transpose Y) (transpose has_rating) j i =
  residual X Theta Y has_rating i j.
Proof.
  intros Hk. unfold residual. cbn [transpose item]. rewrite Hk.
  f_equal. f_equal. apply sum_n_ext; intros l _. ring.
Qed.

(** X6.  Items and users play symmetric parts in [update]: exchanging [X] with
    [Theta] and transposing [Y] and the mask exchanges the two results. *)
Theorem update_exchanges_items_and_users X Theta Y has_rating reg alpha :
  conforming X Theta Y has_rating ->
  exists X' Theta' X'' Theta'',
    update X Theta Y has_rating reg alpha = Ok (X', Theta') /\
    update Theta X (transpose Y) (transpose has_rating) reg alpha = Ok (Theta'', X'') /\
    array_eq X'' X' /\ array_eq Theta'' Theta'.
Proof.
  intros Hc. pose proof (conforming_transpose _ _ _ _ Hc) as Hct.
  pose proof Hc as (Hk & _).
  destruct (update_conforming X Theta Y has_rating reg alpha Hc)
    as (gX & gT & X' & T' & HgX & HgT & Hu & [HX0 HX1] & [HT0 HT1] & HXi & HTi).
  destruct (update_conforming Theta X (transpose Y) (transpose has_rating) reg alpha Hct)
    as (hT & hX & T2 & X2 & HhT & HhX & Hu2 & [HT20 HT21] & [HX20 HX21] & HT2i & HX2i).
  destruct (dX_conforming X Theta Y has_rating reg Hc) as (a & Ha & _ & _ & Hai).
  destruct (dTheta_conforming X Theta Y has_rating reg Hc) as (b & Hb & _ & _ & Hbi).
  destruct (dX_conforming Theta X (transpose Y) (transpose has_rating) reg Hct)
    as (a2 & Ha2 & _ & _ & Ha2i).
  destruct (dTheta_conforming Theta X (transpose Y) (transpose has_rating) reg Hct)
    as (b2 & Hb2 & _ & _ & Hb2i).
  assert (a = gX) by congruence. assert (b = gT) by congruence.
  assert (a2 = hT) by congruence. assert (b2 = hX) by congruence. subst a b a2 b2.
  exists X', T', X2, T2. split; [exact Hu|]. split; [exact Hu2|]. split.
  - split; [congruence|]. split; [congruence|].
    intros i l Hi Hl. rewrite HX20 in Hi. rewrite HX21 in Hl.
    rewrite HX2i, HXi, Hb2i, Hai by assumption.
    f_equal. f_equal. f_equal.
    apply sum_n_ext; intros j _. rewrite residual_transpose by exact Hk. reflexivity.
  - split; [congruence|]. split; [congruence|].
    intros j l Hj Hl. rewrite HT20 in Hj. rewrite HT21 in Hl.
    rewrite HT2i, HTi, Ha2i, Hbi by assumption.
    f_equal. f_equal. f_equal.
    apply sum_n_ext; intros i _. rewrite residual_transpose by exact Hk. reflexivity.
Qed.

Lemma update_exchanges_items_and_users_witness :
  exists X' Theta' X'' Theta'',
    update X_two Theta_one Y_two rated_two 3 (1/2) = Ok (X', Theta') /\
    update Theta_one X_two (transpose Y_two) (transpose rated_two) 3 (1/2)
      = Ok (Theta'', X'') /\
    array_eq X'' X' /\ array_eq Theta'' Theta'.
Proof.
  apply update_exchanges_items_and_users. conforming_by_computation.
Defined.






(** X9.  For ratings arrays of finite numbers (placeholders such as the
    notebook's 0, not NaN or infinity), in exact arithmetic: an item
    nobody has rated gets no data gradient, its row of [X] is only scaled
    by [1 - alpha * reg].  The same holds for the row of [Theta] of a user
    who has rated nothing.  (A NaN placeholder in such a row is not
    masked: [update_f64_nan_placeholder].) *)
Theorem update_only_shrinks_unrated X Theta Y has_rating reg alpha :
  conforming X Theta Y has_rating ->
  exists X' Theta',
    update X Theta Y has_rating reg alpha = Ok (X', Theta') /\
    (forall i, (i < shape0 X)%nat ->
       (forall j, (j < shape0 Theta)%nat -> item has_rating i j = false) ->
       forall l, (l < shape1 X)%nat ->
         item X' i l = (1 - alpha * reg) * item X i l) /\
    (forall j, (j < shape0 Theta)%nat ->
       (forall i, (i < shape0 X)%nat -> item has_rating i j = false) ->
       forall l, (l < shape1 Theta)%nat ->
         item Theta' j l = (1 - alpha * reg) * item Theta j l).
Proof.
  intros Hc.
  destruct (update_conforming X Theta Y has_rating reg alpha Hc)
    as (gX & gT & X' & T' & HgX & HgT & Hu & _ & _ & HXi & HTi).
  destruct (dX_conforming X Theta Y has_rating reg Hc) as (a & Ha & _ & _ & Hai).
  destruct (dTheta_conforming X Theta Y has_rating reg Hc) as (b & Hb & _ & _ & Hbi).
  assert (a = gX) by congruence. assert (b = gT) by congruence. subst a b.
  exists X', T'. split; [exact Hu|]. split.
  - intros i Hi Hnone l Hl. rewrite HXi, Hai by assumption.
    rewrite (sum_n_ext _ _ (fun _ => 0)).
    + rewrite sum_n_zero. ring.
    + intros j Hj. rewrite residual_unrated by (apply Hnone; exact Hj). ring.
  - intros j Hj Hnone l Hl. rewrite HTi, Hbi by assumption.
    rewrite (sum_n_ext _ _ (fun _ => 0)).
    + rewrite sum_n_zero. ring.
    + intros i Hi. rewrite residual_unrated by (apply Hnone; exact Hi). ring.
Qed.

Lemma update_only_shrinks_unrated_witness :
  exists X' Theta',
    update X_two Theta_one Y_first rated_first 3 (1/2) = Ok (X', Theta') /\
    item X' 1%nat 0%nat = (1 - 1/2 * 3) * item X_two 1%nat 0%nat.
Proof.
  destruct (update_only_shrinks_unrated X_two Theta_one Y_first rated_first 3 (1/2))
    as (X' & T' & Hu & HX & _).
  - conforming_by_computation.
  - exists X', T'. split; [exact Hu|].
    apply (HX 1%nat); simpl; try lia.
    intros j Hj. destruct j as [|j]; [reflexivity | lia].
Defined.

(** X4.  The derivative that [dX] is not: what [compute_cost] returns, as a
    function of [X[i,l]], has the derivative below, in which the residual
    of item [i] for user [j] is replaced by the sum of the residuals of
    all items for that user. *)
Theorem compute_cost_partial_derivative X Theta Y has_rating reg i l :
  conforming X Theta Y has_rating ->
  (i < shape0 X)%nat -> (l < shape1 X)%nat ->
  derivable_pt_lim
    (fun v => value_of (compute_cost (set_item X i l v) Theta Y has_rating reg))
    (item X i l)
    (sum_n (shape0 Theta) (fun j =>
       sum_n (shape0 X) (fun i' => residual X Theta Y has_rating i' j)
       * (item Theta j l * float_of_bool (item has_rating i j)))
     + reg * item X i l).
Proof.
  intros Hc Hi Hl.
  assert (Hval : forall v,
    value_of (compute_cost (set_item X i l v) Theta Y has_rating reg) =
    column_sum_squares X Theta Y has_rating / 2
    + reg / 2 * (frobenius2 X + frobenius2 Theta)
    + (v - item X i l)
      * (sum_n (shape0 Theta) (fun j =>
           sum_n (shape0 X) (fun i' => residual X Theta Y has_rating i' j)
           * (item Theta j l * float_of_bool (item has_rating i j)))
         + reg * item X i l)
    + (v - item X i l) * (v - item X i l)
      * (1 / 2 * sum_n (shape0 Theta) (fun j =>
                   item Theta j l * float_of_bool (item has_rating i j)
                   * (item Theta j l * float_of_bool (item has_rating i j)))
         + reg / 2)).
  { intros v.
    assert (Hcv : conforming (set_item X i l v) Theta Y has_rating) by exact Hc.
    rewrite (compute_cost_conforming _ _ _ _ reg Hcv). cbn [value_of].
    rewrite frobenius2_set_item by assumption.
    unfold column_sum_squares. cbn [set_item shape0].
    rewrite (sum_n_ext (shape0 Theta) _ (fun j =>
      (sum_n (shape0 X) (fun i' => residual X Theta Y has_rating i' j)
       + (v - item X i l) * (item Theta j l * float_of_bool (item has_rating i j)))
      * (sum_n (shape0 X) (fun i' => residual X Theta Y has_rating i' j)
         + (v - item X i l) * (item Theta j l * float_of_bool (item has_rating i j))))).
    2:{ intros j _.
        assert (Hcol : sum_n (shape0 X) (fun i' =>
                  residual (set_item X i l v) Theta Y has_rating i' j) =
                sum_n (shape0 X) (fun i' => residual X Theta Y has_rating i' j)
                + (v - item X i l)
                  * (item Theta j l * float_of_bool (item has_rating i j))).
        { rewrite (sum_n_ext (shape0 X) _ (fun i' =>
                    residual X Theta Y has_rating i' j
                    + (if (i' =? i)%nat
                       then (v - item X i l)
                            * (item Theta j l * float_of_bool (item has_rating i j))
                       else 0)))
            by (intros i' _; apply residual_set_item_X; exact Hl).
          rewrite sum_n_plus, sum_n_pick by exact Hi. reflexivity. }
        rewrite Hcol. reflexivity. }
    rewrite (sum_n_ext (shape0 Theta) _ (fun j =>
      sum_n (shape0 X) (fun i' => residual X Theta Y has_rating i' j)
      * sum_n (shape0 X) (fun i' => residual X Theta Y has_rating i' j)
      + ((v - item X i l)
         * (2 * (sum_n (shape0 X) (fun i' => residual X Theta Y has_rating i' j)
                 * (item Theta j l * float_of_bool (item has_rating i j))))
         + (v - item X i l) * (v - item X i l)
           * (item Theta j l * float_of_bool (item has_rating i j)
              * (item Theta j l * float_of_bool (item has_rating i j))))))
      by (intros; ring).
    rewrite sum_n_plus, sum_n_plus, !sum_n_scal_l. field. }
  apply (derivable_pt_lim_quadratic _ _ _
           (1 / 2 * sum_n (shape0 Theta) (fun j =>
                      item Theta j l * float_of_bool (item has_rating i j)
                      * (item Theta j l * float_of_bool (item has_rating i j)))
            + reg / 2)).
  intros v. cbv beta. rewrite (Hval v), (Hval (item X i l)). field.
Qed.

Lemma compute_cost_partial_derivative_witness :
  derivable_pt_lim
    (fun v => value_of (compute_cost (set_item X_two 0 0 v) Theta_one Y_two rated_two 3))
    (item X_two 0 0)
    (sum_n (shape0 Theta_one) (fun j =>
       sum_n (shape0 X_two) (fun i' => residual X_two Theta_one Y_two rated_two i' j)
       * (item Theta_one j 0 * float_of_bool (item rated_two 0 j)))
     + 3 * item X_two 0 0).
Proof.
  apply compute_cost_partial_derivative; [conforming_by_computation | simpl; lia ..].
Defined.

(** X10.  Passing one array as both [X] and [Theta]: both in-place subtractions
    hit that array, which ends as [X - alpha * dX - alpha * dTheta] with
    both gradients taken before the first write; no other array changes. *)
Theorem update_in_place_same_array h p Y has_rating reg alpha :
  conforming (h p) (h p) Y has_rating ->
  exists gX gTheta h',
    dX (h p) (h p) Y has_rating reg = Ok gX /\
    dTheta (h p) (h p) Y has_rating reg = Ok gTheta /\
    update_in_place h p p Y has_rating reg alpha = Ok h' /\
    (forall q, q <> p -> h' q = h q) /\
    shape (h' p) = shape (h p) /\
    forall i l, (i < shape0 (h p))%nat -> (l < shape1 (h p))%nat ->
      item (h' p) i l =
      item (h p) i l - alpha * item gX i l - alpha * item gTheta i l.
Proof.
  intros Hc.
  destruct (dX_conforming _ _ _ _ reg Hc) as (gX & HgX & HgX0 & HgX1 & _).
  destruct (dTheta_conforming _ _ _ _ reg Hc) as (gT & HgT & HgT0 & HgT1 & _).
  destruct (isub_same_shape (h p) (scale alpha gX)) as (X1 & HX1 & HX10 & HX11 & HX1i);
    [exact HgX0 | exact HgX1 |].
  destruct (isub_same_shape X1 (scale alpha gT)) as (A & HA & HA0 & HA1 & HAi);
    [simpl; congruence | simpl; congruence |].
  exists gX, gT, (write (write h p X1) p A).
  split; [exact HgX|]. split; [exact HgT|]. split.
  { unfold update_in_place. rewrite HgX, HgT. cbn [bind_result]. rewrite HX1.
    cbn [bind_result].
    assert (Hread : write h p X1 p = X1) by (unfold write; rewrite Nat.eqb_refl; reflexivity).
    rewrite Hread, HA. reflexivity. }
  assert (Hp : write (write h p X1) p A p = A)
    by (unfold write; rewrite Nat.eqb_refl; reflexivity).
  split; [|split].
  - intros q Hq. unfold write. destruct (Nat.eqb_spec q p); [contradiction | reflexivity].
  - rewrite Hp. unfold shape. congruence.
  - intros i l Hi Hl. rewrite Hp, HAi by congruence.
    rewrite HX1i by assumption. simpl. ring.
Qed.

Lemma update_in_place_same_array_witness :
  exists gX gTheta h',
    dX Theta_one Theta_one Y_one rated_one 3 = Ok gX /\
    dTheta Theta_one Theta_one Y_one rated_one 3 = Ok gTheta /\
    update_in_place (fun _ => Theta_one) 0 0 Y_one rated_one 3 (1/2) = Ok h' /\
    (forall q, q <> 0%nat -> h' q = Theta_one) /\
    shape (h' 0%nat) = shape Theta_one /\
    forall i l, (i < shape0 Theta_one)%nat -> (l < shape1 Theta_one)%nat ->
      item (h' 0%nat) i l =
      item Theta_one i l - 1/2 * item gX i l - 1/2 * item gTheta i l.
Proof.
  apply (update_in_place_same_array (fun _ => Theta_one) 0 Y_one rated_one 3 (1/2)).
  conforming_by_computation.
Defined.

(** ** Properties of the training loop *)

Lemma update_shapes_ok_same_shape X Theta X' Theta' Y has_rating :
  shape X' = shape X -> shape Theta' = shape Theta ->
  update_shapes_ok X' Theta' Y has_rating = update_shapes_ok X Theta Y has_rating.
Proof.
  unfold shape. intros HX HT. injection HX as HX0 HX1. injection HT as HT0 HT1.
  unfold update_shapes_ok, cost_shapes_ok, error_rows, error_cols.
  rewrite HX0, HX1, HT0, HT1. reflexivity.
Qed.

(** An axis of length [n] is broadcast against one of length [m] without
    lengthening it exactly when [n] is [m] or 1. *)
Lemma broadcast_keeps_length (m n : nat) :
  compatible m n = true /\ stretched m n = m <-> n = m \/ n = 1%nat.
Proof.
  unfold compatible, stretched.
  destruct (Nat.eqb_spec m n), (Nat.eqb_spec m 1), (Nat.eqb_spec n 1);
    cbn [orb]; split; intros H; try lia;
    try (destruct H as [H _]; discriminate); try (split; [reflexivity | lia]).
Qed.

(** For factors of shapes (ni,k) and (nu,k) made for a (ni,nu) array [Y],
    [update] accepts the mask when each of its axes has the length of the
    axis of [Y] or length 1. *)
Lemma update_shapes_ok_trained X Theta Y has_rating :
  shape1 X = shape1 Theta -> shape0 X = shape0 Y -> shape0 Theta = shape1 Y ->
  update_shapes_ok X Theta Y has_rating = true <->
  (shape0 has_rating = shape0 Y \/ shape0 has_rating = 1%nat) /\
  (shape1 has_rating = shape1 Y \/ shape1 has_rating = 1%nat).
Proof.
  intros Hk HX HT.
  assert (Hrefl : forall m, compatible m m = true /\ stretched m m = m)
    by (intros m; apply broadcast_keeps_length; auto).
  unfold update_shapes_ok, cost_shapes_ok, error_rows, error_cols.
  rewrite Hk, HX, HT, Nat.eqb_refl.
  rewrite (proj1 (Hrefl (shape0 Y))), (proj2 (Hrefl (shape0 Y))).
  rewrite (proj1 (Hrefl (shape1 Y))), (proj2 (Hrefl (shape1 Y))).
  cbn [andb]. rewrite !andb_true_iff, !Nat.eqb_eq.
  rewrite <- (broadcast_keeps_length (shape0 Y) (shape0 has_rating)).
  rewrite <- (broadcast_keeps_length (shape1 Y) (shape1 has_rating)).
  tauto.
Qed.

Section TrainingErrors.

Variables (Y : ndarray R) (has_rating : ndarray bool) (reg alpha : R).

(** Once the first update has gone through, every later one does. *)
Lemma for_each_train_body_returns n :
  forall a X Theta w, update_shapes_ok X Theta Y has_rating = true ->
  exists w' s, for_each (seq a n) (train_body Y has_rating reg alpha) (X, Theta) w
               = (w', Ok s).
Proof.
  induction n as [|n IH]; intros a X Theta w Hok.
  - eexists _, _. reflexivity.
  - assert (Hcost : cost_shapes_ok X Theta Y has_rating = true).
    { unfold update_shapes_ok in Hok. rewrite !andb_true_iff in Hok. tauto. }
    destruct (compute_cost X Theta Y has_rating reg) as [c|] eqn:Hc.
    2:{ apply compute_cost_raises_iff in Hc. congruence. }
    destruct (update X Theta Y has_rating reg alpha) as [[X1 T1]|] eqn:Hu.
    2:{ apply update_raises_iff in Hu. congruence. }
    destruct (update_shape _ _ _ _ _ _ _ _ Hu) as [[HX0 HX1] [HT0 HT1]].
    assert (Hok1 : update_shapes_ok X1 T1 Y has_rating = true).
    { rewrite (update_shapes_ok_same_shape X Theta); [exact Hok | unfold shape; congruence ..]. }
    cbn [seq for_each]. unfold bind_io at 1. unfold train_body at 1.
    rewrite Hc, Hu.
    destruct ((a =? 0)%nat || (a mod 100 =? 0)%nat);
      unfold bind_io, lift, print, ret_io; apply (IH (S a) X1 T1 _ Hok1).
Qed.

(** If the first update is rejected, the loop raises in its first
    iteration. *)
Lemma for_each_train_body_raises n X Theta w :
  update_shapes_ok X Theta Y has_rating = false ->
  snd (for_each (seq 0 (S n)) (train_body Y has_rating reg alpha) (X, Theta) w)
  = ValueError.
Proof.
  intros Hno. apply (update_raises_iff _ _ _ _ reg alpha) in Hno.
  cbn [seq for_each]. unfold bind_io at 1. unfold train_body at 1. rewrite Hno.
  cbn [Nat.eqb orb].
  destruct (compute_cost X Theta Y has_rating reg);
    unfold bind_io, lift, print; reflexivity.
Qed.

(** Whatever happens, an iteration leaves the generator alone and only
    appends to the console. *)
Lemma train_body_frame i s w :
  np_random (fst (train_body Y has_rating reg alpha i s w)) = np_random w /\
  exists printed,
    stdout (fst (train_body Y has_rating reg alpha i s w)) = stdout w ++ printed.
Proof.
  destruct s as [X Theta]. unfold train_body, bind_io, lift, print, ret_io.
  destruct ((i =? 0)%nat || (i mod 100 =? 0)%nat).
  - destruct (compute_cost X Theta Y has_rating reg) as [c|].
    + destruct (update X Theta Y has_rating reg alpha);
        cbn; (split; [reflexivity|]); exists [(i, c)]; reflexivity.
    + cbn. split; [reflexivity|]. exists []. rewrite app_nil_r. reflexivity.
  - destruct (update X Theta Y has_rating reg alpha);
      cbn; (split; [reflexivity|]); exists []; rewrite app_nil_r; reflexivity.
Qed.

Lemma for_each_train_body_frame idx :
  forall s w,
  np_random (fst (for_each idx (train_body Y has_rating reg alpha) s w)) = np_random w /\
  exists printed,
    stdout (fst (for_each idx (train_body Y has_rating reg alpha) s w))
    = stdout w ++ printed.
Proof.
  induction idx as [|i idx IH]; intros s w.
  - cbn. split; [reflexivity|]. exists []. rewrite app_nil_r. reflexivity.
  - cbn [for_each]. unfold bind_io.
    destruct (train_body_frame i s w) as [Hr [out Hout]].
    destruct (train_body Y has_rating reg alpha i s w) as [w1 [s1|]];
      cbn [fst] in Hr, Hout.
    + destruct (IH s1 w1) as [Hr1 [out1 Hout1]].
      split; [congruence|]. exists (out ++ out1).
      rewrite Hout1, Hout, app_assoc. reflexivity.
    + cbn [fst]. split; [exact Hr|]. exists out. exact Hout.
Qed.

End TrainingErrors.

(** For [n_factor >= 0]: [train] raises exactly when it runs at least one
    iteration and some axis of the mask has neither the length of that
    axis of [Y] nor length 1. *)
Lemma train_raises_iff Y has_rating reg alpha k n w :
  snd (train Y has_rating reg alpha k n w) = ValueError <->
  n <> 0%nat /\
  ~ ((shape0 has_rating = shape0 Y \/ shape0 has_rating = 1%nat) /\
     (shape1 has_rating = shape1 Y \/ shape1 has_rating = 1%nat)).
Proof.
  destruct (randn_twice (shape0 Y) (shape1 Y) k w)
    as (X0 & T0 & w1 & w2 & H1 & H2 & HX & HT & _).
  unfold shape in HX, HT. injection HX as HX0 HX1. injection HT as HT0 HT1.
  pose proof (update_shapes_ok_trained X0 T0 Y has_rating
                ltac:(congruence) HX0 HT0) as Hiff.
  unfold train. unfold bind_io at 1. rewrite H1. unfold bind_io at 1. rewrite H2.
  destruct n as [|n].
  - cbn. split; [discriminate | intros [H _]; contradiction].
  - destruct (update_shapes_ok X0 T0 Y has_rating) eqn:Hok.
    + destruct (for_each_train_body_returns Y has_rating reg alpha (S n) 0 X0 T0 w2 Hok)
        as (w' & s & ->).
      cbn [snd]. split; [discriminate|].
      intros [_ Hno]. exfalso. apply Hno, Hiff. reflexivity.
    + rewrite (for_each_train_body_raises Y has_rating reg alpha n X0 T0 w2 Hok).
      split; [|reflexivity]. intros _. split; [discriminate|].
      intros H. apply Hiff in H. discriminate.
Qed.

(** X11.  [train], with [n_factor] and [n_iter] any Python integers, raises
    exactly when [n_factor] is negative, or it runs at least one iteration
    and some axis of the mask has neither the length of that axis of [Y]
    nor length 1.  With [n_iter <= 0] no shape is checked; a mask with a
    single row or column is broadcast over the items or users. *)
Theorem train_int_raises_iff Y has_rating reg alpha k n w :
  snd (train_int Y has_rating reg alpha k n w) = ValueError <->
  (k < 0)%Z \/
  ((0 < n)%Z /\
   ~ ((shape0 has_rating = shape0 Y \/ shape0 has_rating = 1%nat) /\
      (shape1 has_rating = shape1 Y \/ shape1 has_rating = 1%nat))).
Proof.
  destruct (Z.ltb_spec k 0) as [Hneg|Hpos].
  - rewrite train_int_negative by exact Hneg. cbn [snd]. split; auto.
  - rewrite (train_int_nonneg _ _ _ _ _ n Hpos), train_raises_iff.
    split.
    + intros [Hn Hno]. right. split; [lia | exact Hno].
    + intros [Hk | [Hn Hno]]; [lia|]. split; [lia | exact Hno].
Qed.

Lemma train_int_raises_iff_witness :
  snd (train_int Y_two rated_one 0 (1/2) 3 5 (fresh_world (fun _ => 1))) <> ValueError /\
  snd (train_int Y_two rated_one 0 (1/2) (-1) 0 (fresh_world (fun _ => 1))) = ValueError.
Proof.
  split.
  - intros H. apply train_int_raises_iff in H. destruct H as [H | [_ H]]; [lia|].
    apply H. simpl. auto.
  - apply train_int_raises_iff. left. lia.
Defined.

(** X12.  Whether it returns or raises, and whatever [n_iter] is, [train] draws
    exactly [(ni + nu) * n_factor] samples, all before the loop, and only
    appends to what the console already shows. *)
Theorem train_draws_and_appends Y has_rating reg alpha k n w :
  samples (np_random (fst (train Y has_rating reg alpha k n w))) = samples (np_random w) /\
  drawn (np_random (fst (train Y has_rating reg alpha k n w))) =
    (drawn (np_random w) + (shape0 Y + shape1 Y) * k)%nat /\
  exists printed,
    stdout (fst (train Y has_rating reg alpha k n w)) = stdout w ++ printed.
Proof.
  unfold train, bind_io, randn. cbn [np_random stdout samples drawn].
  set (w2 := mk_world _ _). set (s0 := (_, _)).
  destruct (for_each_train_body_frame Y has_rating reg alpha (seq 0 n) s0 w2)
    as [Hr [out Hout]].
  rewrite Hr, Hout. unfold w2. cbn [np_random stdout samples drawn].
  split; [reflexivity|]. split; [lia|]. exists out. reflexivity.
Qed.

(** The iterations at which [train] prints are 0, 100, 200, ...: one for
    every started hundred of [n_iter]. *)
Lemma reported_schedule (n : nat) :
  filter reported (seq 0 n) = map (fun q => (100 * q)%nat) (seq 0 ((n + 99) / 100)).
Proof.
  induction n as [|n IH]; [reflexivity|].
  rewrite seq_S, filter_app, IH. cbn [filter Nat.add]. unfold reported.
  pose proof (Nat.div_mod_eq n 100) as E1.
  pose proof (Nat.div_mod_eq (S (n + 99)) 100) as E2.
  pose proof (Nat.div_mod_eq (n + 99) 100) as E3.
  pose proof (Nat.mod_upper_bound (S (n + 99)) 100 ltac:(lia)) as B2.
  pose proof (Nat.mod_upper_bound (n + 99) 100 ltac:(lia)) as B3.
  pose proof (Nat.mod_upper_bound n 100 ltac:(lia)) as B1.
  destruct (Nat.eqb_spec (n mod 100) 0) as [Hz|Hnz].
  - replace (S (n + 99) / 100)%nat with (S ((n + 99) / 100)) by lia.
    rewrite seq_S, map_app. cbn [map Nat.add]. do 2 f_equal. lia.
  - replace (S (n + 99) / 100)%nat with ((n + 99) / 100)%nat by lia.
    apply app_nil_r.
Qed.

(** X13.  On a mask of the shape of [Y], [train] prints [ceil(n_iter / 100)]
    lines, for the iterations 0, 100, 200, ... in this order. *)
Theorem train_prints_every_hundredth Y has_rating reg alpha k n w :
  shape has_rating = shape Y ->
  exists printed,
    stdout (fst (train Y has_rating reg alpha k n w)) = stdout w ++ printed /\
    map fst printed = map (fun q => (100 * q)%nat) (seq 0 ((n + 99) / 100)) /\
    length printed = ((n + 99) / 100)%nat.
Proof.
  intros Hs.
  destruct (randn_twice (shape0 Y) (shape1 Y) k w) as (X0 & T0 & w1 & w2 & H1 & H2 & _).
  destruct (train_spec Y has_rating reg alpha k n w X0 T0 w1 w2 Hs H1 H2) as [_ Ht].
  rewrite Ht. cbn [fst stdout]. eexists. split; [reflexivity|].
  rewrite map_map. cbn [fst]. rewrite map_id, reported_schedule.
  split; [reflexivity|]. rewrite !length_map, length_seq. reflexivity.
Qed.

Lemma train_prints_every_hundredth_witness :
  exists printed,
    stdout (fst (train Y_5x7 rated_5x7 0 (1/10) 3 250 (fresh_world (fun _ => 1))))
    = [] ++ printed /\
    map fst printed = map (fun q => (100 * q)%nat) (seq 0 ((250 + 99) / 100)) /\
    length printed = ((250 + 99) / 100)%nat.
Proof.
  apply (train_prints_every_hundredth Y_5x7 rated_5x7 0 (1/10) 3 250
           (fresh_world (fun _ => 1))).
  reflexivity.
Defined.

(** ** The mask [Y > 0] and the notebook's run *)

(** Cost and update see the ratings and the mask through the masked
    residuals only. *)
Lemma same_residuals_same_results X Theta Y Y' has_rating has_rating' reg alpha :
  conforming X Theta Y has_rating -> conforming X Theta Y' has_rating' ->
  (forall i j, (i < shape0 X)%nat -> (j < shape0 Theta)%nat ->
     residual X Theta Y' has_rating' i j = residual X Theta Y has_rating i j) ->
  compute_cost X Theta Y' has_rating' reg = compute_cost X Theta Y has_rating reg /\
  exists X1 Theta1 X2 Theta2,
    update X Theta Y has_rating reg alpha = Ok (X1, Theta1) /\
    update X Theta Y' has_rating' reg alpha = Ok (X2, Theta2) /\
    array_eq X1 X2 /\ array_eq Theta1 Theta2.
Proof.
  intros Hc Hc' Hres. split.
  { rewrite (compute_cost_conforming _ _ _ _ reg Hc), (compute_cost_conforming _ _ _ _ reg Hc').
    do 3 f_equal. unfold column_sum_squares.
    apply sum_n_ext; intros j Hj.
    rewrite (sum_n_ext _ _ (fun i => residual X Theta Y has_rating i j))
      by (intros i Hi; apply Hres; assumption).
    reflexivity. }
  destruct (update_conforming X Theta Y has_rating reg alpha Hc)
    as (gX & gT & X1 & T1 & HgX & HgT & Hu & [HX0 HX1] & [HT0 HT1] & HXi & HTi).
  destruct (update_conforming X Theta Y' has_rating' reg alpha Hc')
    as (gX' & gT' & X2 & T2 & HgX' & HgT' & Hu' & [HX0' HX1'] & [HT0' HT1'] & HXi' & HTi').
  destruct (dX_conforming X Theta Y has_rating reg Hc) as (a & Ha & _ & _ & Hai).
  destruct (dX_conforming X Theta Y' has_rating' reg Hc') as (a' & Ha' & _ & _ & Hai').
  destruct (dTheta_conforming X Theta Y has_rating reg Hc) as (b & Hb & _ & _ & Hbi).
  destruct (dTheta_conforming X Theta Y' has_rating' reg Hc') as (b' & Hb' & _ & _ & Hbi').
  assert (a = gX) by congruence. assert (a' = gX') by congruence.
  assert (b = gT) by congruence. assert (b' = gT') by congruence. subst a a' b b'.
  exists X1, T1, X2, T2. split; [exact Hu|]. split; [exact Hu'|]. split.
  - split; [congruence|]. split; [congruence|].
    intros i l Hi Hl. rewrite HX0 in Hi. rewrite HX1 in Hl.
    rewrite HXi, HXi', Hai, Hai' by assumption. do 3 f_equal.
    apply sum_n_ext; intros j Hj. rewrite Hres by assumption. reflexivity.
  - split; [congruence|]. split; [congruence|].
    intros j l Hj Hl. rewrite HT0 in Hj. rewrite HT1 in Hl.
    rewrite HTi, HTi', Hbi, Hbi' by assumption. do 3 f_equal.
    apply sum_n_ext; intros i Hi. rewrite Hres by assumption. reflexivity.
Qed.

(** X15.  With the mask derived as [Y > 0], only the positive entries of [Y]
    count: two ratings arrays of finite numbers and of the same shape that
    agree wherever either is positive give, in exact arithmetic, the same
    cost and the same updated factors, whatever zero or negative finite
    placeholders they hold elsewhere. *)
Theorem only_positive_ratings_matter X Theta Y Y' reg alpha :
  shape1 X = shape1 Theta -> shape Y = (shape0 X, shape0 Theta) -> shape Y' = shape Y ->
  (forall i j, (i < shape0 Y)%nat -> (j < shape1 Y)%nat ->
     0 < item Y i j \/ 0 < item Y' i j -> item Y' i j = item Y i j) ->
  compute_cost X Theta Y' (greater Y' 0) reg = compute_cost X Theta Y (greater Y 0) reg /\
  exists X1 Theta1 X2 Theta2,
    update X Theta Y (greater Y 0) reg alpha = Ok (X1, Theta1) /\
    update X Theta Y' (greater Y' 0) reg alpha = Ok (X2, Theta2) /\
    array_eq X1 X2 /\ array_eq Theta1 Theta2.
Proof.
  intros Hk HY HY' Hpos. unfold shape in HY, HY'.
  injection HY as HY0 HY1. injection HY' as HY0' HY1'.
  apply same_residuals_same_results.
  - unfold conforming. cbn [greater shape0 shape1]. auto.
  - unfold conforming. cbn [greater shape0 shape1]. repeat split; congruence.
  - intros i j Hi Hj. unfold residual. cbn [greater item].
    specialize (Hpos i j ltac:(congruence) ltac:(congruence)).
    destruct (Rlt_dec 0 (item Y i j)) as [Hp|Hn], (Rlt_dec 0 (item Y' i j)) as [Hp'|Hn'];
      cbn [float_of_bool].
    + rewrite Hpos by auto. reflexivity.
    + exfalso. rewrite Hpos in Hn' by auto. contradiction.
    + exfalso. rewrite <- Hpos in Hn by auto. contradiction.
    + ring.
Qed.

Lemma only_positive_ratings_matter_witness :
  compute_cost X_two Theta_one Y_other (greater Y_other 0) 3 =
  compute_cost X_two Theta_one Y_first (greater Y_first 0) 3.
Proof.
  apply (only_positive_ratings_matter X_two Theta_one Y_first Y_other 3 (1/2));
    try reflexivity.
  intros i j Hi Hj. simpl in Hi, Hj.
  destruct i as [|[|i]]; destruct j as [|j]; simpl; try lia; intros [H|H]; lra.
Defined.

(** X16.  The notebook's run, for any ratings array and whatever the generator
    and the console were before: it never raises, the predicted array has
    the shape of [Y], and it prints 26 lines, for the iterations 0, 100,
    ..., 2500.  Because of [np.random.seed(915)], the prediction and the
    printed lines do not depend on the state of the generator before the
    run. *)
Theorem fit_and_predict_spec seeded Y :
  exists P printed,
    shape P = shape Y /\
    map fst printed = map (fun q => (100 * q)%nat) (seq 0 26) /\
    forall w,
      fit_and_predict seeded Y w =
      (mk_world (mk_rng (seeded 915%nat) (0 + shape0 Y * 10 + shape1 Y * 10))
                (stdout w ++ printed),
       Ok P).
Proof.
  set (R0 := greater Y 0).
  assert (Hs : shape R0 = shape Y) by reflexivity.
  set (g := mk_rng (seeded 915%nat) 0).
  destruct (randn_twice (shape0 Y) (shape1 Y) 10 (mk_world g []))
    as (X0 & T0 & w1 & w2 & H1 & H2 & HX & HT & _).
  unfold randn in H1, H2. injection H1 as <- <-. injection H2 as <- <-.
  set (X0 := mk_array (shape0 Y) 10 _) in *. set (T0 := mk_array (shape1 Y) 10 _) in *.
  assert (Hc : conforming X0 T0 Y R0) by (unfold conforming; cbn; auto).
  destruct (updates_conforming Y R0 0 (9 / 10000) 2501 X0 T0 Hc)
    as (Xn & Tn & Hn & HXn & HTn).
  unfold shape in HXn, HTn. cbn [X0 T0 shape0 shape1] in HXn, HTn.
  injection HXn as HXn0 HXn1. injection HTn as HTn0 HTn1.
  exists (mk_array (shape0 Xn) (shape0 Tn)
            (fun i j => sum_n (shape1 Xn) (fun l => item Xn i l * item (transpose Tn) l j))).
  exists (map (fun i => (i, value_of (loss_after Y R0 0 (9 / 10000) i (X0, T0))))
              (filter reported (seq 0 2501))).
  split; [unfold shape; cbn [shape0 shape1]; congruence|].
  split.
  { rewrite map_map. cbn [fst]. rewrite map_id. apply reported_schedule. }
  intros w. unfold fit_and_predict. fold R0.
  unfold bind_io at 1. unfold seed at 1. fold g.
  unfold bind_io at 1.
  assert (Hr1 : randn (shape0 Y) 10 (mk_world g (stdout w))
                = (mk_world (mk_rng (seeded 915%nat) (0 + shape0 Y * 10)) (stdout w), Ok X0))
    by reflexivity.
  assert (Hr2 : randn (shape1 Y) 10
                  (mk_world (mk_rng (seeded 915%nat) (0 + shape0 Y * 10)) (stdout w))
                = (mk_world (mk_rng (seeded 915%nat) (0 + shape0 Y * 10 + shape1 Y * 10))
                            (stdout w), Ok T0))
    by reflexivity.
  destruct (train_spec Y R0 0 (9 / 10000) 10 2501 _ X0 T0 _ _ Hs Hr1 Hr2) as [_ Ht].
  rewrite Ht, Hn. cbn [np_random stdout].
  unfold lift, matmul. cbn [transpose shape0 shape1].
  rewrite HXn1, HTn1, Nat.eqb_refl. reflexivity.
Qed.

(** Iterating once more is updating the last result. *)
Lemma updates_last Y has_rating reg alpha n :
  forall s,
  updates Y has_rating reg alpha (S n) s =
  (s' <- updates Y has_rating reg alpha n s ;;
   update (fst s') (snd s') Y has_rating reg alpha)%result.
Proof.
  induction n as [|n IH]; intros s.
  - cbn [updates bind_result].
    destruct (update (fst s) (snd s) Y has_rating reg alpha); reflexivity.
  - change (updates Y has_rating reg alpha (S (S n)) s)
      with (s1 <- update (fst s) (snd s) Y has_rating reg alpha ;;
            updates Y has_rating reg alpha (S n) s1)%result.
    cbn [updates].
    destruct (update (fst s) (snd s) Y has_rating reg alpha) as [s1|]; cbn [bind_result];
      [|reflexivity].
    rewrite <- IH. reflexivity.
Qed.

(** X17.  From the same generator state, [train] with one more iteration returns
    the factors of the shorter run updated once more. *)
Theorem train_one_more_iteration Y has_rating reg alpha k n w :
  shape has_rating = shape Y ->
  exists X Theta,
    snd (train Y has_rating reg alpha k n w) = Ok (X, Theta) /\
    snd (train Y has_rating reg alpha k (S n) w) = update X Theta Y has_rating reg alpha.
Proof.
  intros Hs.
  destruct (randn_twice (shape0 Y) (shape1 Y) k w) as (X0 & T0 & w1 & w2 & H1 & H2 & _).
  destruct (train_spec Y has_rating reg alpha k n w X0 T0 w1 w2 Hs H1 H2) as [Hc Ht].
  destruct (train_spec Y has_rating reg alpha k (S n) w X0 T0 w1 w2 Hs H1 H2) as [_ Ht'].
  destruct (updates_conforming Y has_rating reg alpha n X0 T0 Hc) as (X & T & Hn & _).
  exists X, T. rewrite Ht, Ht'. cbn [snd]. split; [exact Hn|].
  rewrite updates_last, Hn. reflexivity.
Qed.

Lemma train_one_more_iteration_witness :
  exists X Theta,
    snd (train Y_5x7 rated_5x7 0 (1/10) 3 2 (fresh_world (fun _ => 1))) = Ok (X, Theta) /\
    snd (train Y_5x7 rated_5x7 0 (1/10) 3 3 (fresh_world (fun _ => 1)))
    = update X Theta Y_5x7 rated_5x7 0 (1/10).
Proof.
  apply (train_one_more_iteration Y_5x7 rated_5x7 0 (1/10) 3 2 (fresh_world (fun _ => 1))).
  reflexivity.
Defined.
